(** * CatRacer: a verification development for [cats.py]

    The typing-test program is embedded shallowly.  A Python string is the
    [string] of its characters (code points below 256), Python integers are
    [Z], the limit of the difference functions is a [Z], lists are [list]s
    indexed through a fallible lookup, and the code that can raise is
    written in a small exception monad.  The numbers produced by [/] are
    exact rationals ([Q]): binary rounding of the Python floats is outside
    this model.  The lists that [fastest_words] reads and builds are objects
    in a store, so that what the function changes can be stated.  A time is
    an integer or one of the floats [math.inf], [-math.inf] and [nan]; the
    finite floats are outside this model. *)

From Stdlib Require Import ZArith QArith String Ascii List Bool Lia Lqa.
From stdpp Require Import base option list strings.

Import ListNotations.
Local Open Scope string_scope.
Local Open Scope list_scope.
Local Open Scope Z_scope.

(** ** Python values used by the program *)

(** [len(s)] of a string, as a Python integer. *)
Definition len (s : string) : Z := Z.of_nat (String.length s).

(** ** Phase 2: the difference functions *)

Module Diff.

(** [feline_fixes(typed, source, limit)]. *)
Fixpoint feline_fixes (typed source : string) (limit : Z) {struct typed} : Z :=
  if limit <? 0 then 0
  else match typed, source with
       | String t0 typed', String s0 source' =>
           if Ascii.eqb t0 s0
           then feline_fixes typed' source' limit
           else 1 + feline_fixes typed' source' (limit - 1)
       | _, _ => len source + len typed
       end.

(** [minimum_mewtations(start, goal, limit)].  The Python recursion shortens
    [start], [goal] or both; it is written as a recursion on [start] with an
    inner recursion on [goal].  [minimum_mewtations_eq] below restates the
    body with plain recursive calls. *)
Fixpoint minimum_mewtations (start : string) : string -> Z -> Z :=
  fix on_goal (goal : string) (limit : Z) {struct goal} : Z :=
    if limit <? 0 then 0
    else match start, goal with
         | String s0 start', String g0 goal' =>
             if Ascii.eqb g0 s0
             then minimum_mewtations start' goal' limit
             else
               let add := on_goal goal' (limit - 1) in
               let remove := minimum_mewtations start' goal (limit - 1) in
               let substitute := minimum_mewtations start' goal' (limit - 1) in
               1 + Z.min add (Z.min remove substitute)
         | _, _ => len goal + len start
         end.

(** [FINAL_DIFF_LIMIT] and [final_diff]. *)
Definition FINAL_DIFF_LIMIT : Z := 6.

Definition final_diff (typed source : string) (limit : Z) : Z :=
  minimum_mewtations typed source
    (Z.max (len typed) (Z.max (len source) FINAL_DIFF_LIMIT)).

End Diff.

Import Diff.

(** ** Exceptions and loops *)

(** The exceptions that the modelled code raises. *)
Inductive exn : Type :=
| AssertionError
| IndexError
| ZeroDivisionError
| TypeError
| OverflowError.

(** A computation returns a value or raises. *)
Inductive result (A : Type) : Type :=
| Ok (a : A)
| Raise (e : exn).

Arguments Ok {A} a.
Arguments Raise {A} e.

#[global] Instance result_ret : MRet result := fun A a => Ok a.

#[global] Instance result_bind : MBind result := fun A B f r =>
  match r with
  | Ok a => f a
  | Raise e => Raise e
  end.

(** Runs the binds of a computation whose head has been rewritten to
    [Ok] or [Raise]. *)
Ltac run := cbn [mbind result_bind].

(** [assert cond]. *)
Definition assert (cond : bool) : result unit :=
  if cond then Ok tt else Raise AssertionError.

(** [l[i]] for an index [i >= 0]. *)
Definition index {A : Type} (l : list A) (i : nat) : result A :=
  match l !! i with
  | Some a => Ok a
  | None => Raise IndexError
  end.

(** How one iteration of a [for] loop ends: it falls through to the next
    one, or it executes [break]. *)
Inductive ctl (S : Type) : Type :=
| Next (s : S)
| Break (s : S).

Arguments Next {S} s.
Arguments Break {S} s.

(** [for x in l: body], threading the variables that the body assigns. *)
Fixpoint for_each {A S : Type} (l : list A) (body : A -> S -> result (ctl S))
  (s : S) : result S :=
  match l with
  | [] => Ok s
  | x :: l' =>
      match body x s with
      | Ok (Next s') => for_each l' body s'
      | Ok (Break s') => Ok s'
      | Raise e => Raise e
      end
  end.

(** [range(n)]. *)
Definition range (n : nat) : list nat := seq 0 n.

(** [math.inf] next to the integers: the running minimum of a scan. *)
Inductive ext : Type :=
| Fin (z : Z)
| Inf.

(** [z < m] and [m > z] for a running minimum [m]. *)
Definition lt_ext (z : Z) (m : ext) : bool :=
  match m with
  | Fin m' => z <? m'
  | Inf => true
  end.

Definition gt_ext (m : ext) (z : Z) : bool :=
  match m with
  | Fin m' => m' >? z
  | Inf => true
  end.

(** [a / b] on two integers. *)
Definition truediv (a b : Z) : result Q :=
  if b =? 0 then Raise ZeroDivisionError
  else Ok (inject_Z a / inject_Z b)%Q.

(** ** Phase 1: scoring *)

Module Scorer.

(** The characters at which [str.split()] cuts. *)
Definition is_space (c : ascii) : bool :=
  let n := nat_of_ascii c in
  ((9 <=? n) && (n <=? 13) || (28 <=? n) && (n <=? 32)
   || (n =? 133) || (n =? 160))%nat.

(** [split] scans [s] with the word read so far in [word]. *)
Fixpoint split_from (word s : string) {struct s} : list string :=
  match s with
  | EmptyString => if String.eqb word "" then [] else [word]
  | String c s' =>
      if is_space c
      then if String.eqb word "" then split_from "" s'
           else word :: split_from "" s'
      else split_from (word +:+ String c "") s'
  end.

(** Modelled from the spec: [split] of [utils], which is not among the
    sources.  Section 4.1 describes it as a raw whitespace split that keeps
    case and punctuation: the words of [s] are its maximal runs of
    characters other than whitespace. *)
Definition split (s : string) : list string := split_from "" s.

Definition compute_mistyped_words (typed_words source_words : list string)
  : result Z :=
  for_each (range (Nat.min (length typed_words) (length source_words)))
    (fun i miss_typed_words_cnt =>
       t ← index typed_words i;
       s ← index source_words i;
       if negb (String.eqb t s)
       then Ok (Next (miss_typed_words_cnt + 1))
       else Ok (Next miss_typed_words_cnt))
    0.

Definition compute_extra_typed_words (typed_words_len source_words_len : Z) : Z :=
  if typed_words_len >? source_words_len
  then typed_words_len - source_words_len
  else 0.

Definition compute_accuracy (mistyped_words_cnt extra_typed_words_cnt
                               typed_words_len : Z) : result Q :=
  correctly_typed_words ←
    truediv (mistyped_words_cnt + extra_typed_words_cnt) typed_words_len;
  Ok ((1 - correctly_typed_words) * 100)%Q.

Definition accuracy (typed source : string) : result Q :=
  let typed_words := split typed in
  let source_words := split source in
  let source_len := Z.of_nat (length source_words) in
  let typed_len := Z.of_nat (length typed_words) in
  if (typed_len =? 0) && (source_len =? 0) then Ok 100%Q
  else if (typed_len =? 0) || (source_len =? 0) then Ok 0%Q
  else
    let extra_typed_words_cnt := compute_extra_typed_words typed_len source_len in
    mistyped_words_cnt ← compute_mistyped_words typed_words source_words;
    compute_accuracy mistyped_words_cnt extra_typed_words_cnt typed_len.

(** [wpm(typed, elapsed)]; [elapsed] is a number of seconds. *)
Definition wpm (typed : string) (elapsed : Q) : result Q :=
  _ ← assert (negb (Qle_bool elapsed 0));
  Ok ((inject_Z (len typed) / 5) * (60 / elapsed))%Q.

End Scorer.

(** ** Phase 2: autocorrect *)

Module Autocorrect.

(** A difference function: [(word, word, limit) -> number]. *)
Definition diff_function : Type := string -> string -> Z -> Z.

Definition compute_smallest_diff_and_return_word (diff : diff_function)
  (limit : Z) (typed_word : string) (word_list : list string) : string * ext :=
  let '(smallest_diff, autocorrect_word) :=
    fold_left
      (fun '(smallest_diff, autocorrect_word) word =>
         let current_diff := diff typed_word word limit in
         if lt_ext current_diff smallest_diff
         then (Fin current_diff, word)
         else (smallest_diff, autocorrect_word))
      word_list (Inf, "") in
  (autocorrect_word, smallest_diff).

Definition autocorrect (typed_word : string) (word_list : list string)
  (diff : diff_function) (limit : Z) : string :=
  if existsb (String.eqb typed_word) word_list then typed_word
  else
    let '(autocorrect_word, smallest_diff) :=
      compute_smallest_diff_and_return_word diff limit typed_word word_list in
    if gt_ext smallest_diff limit then typed_word else autocorrect_word.

End Autocorrect.

(** ** Phase 3: progress and the multiplayer match *)

Module Progress.

(** The report handed to [upload]: [{'id': ..., 'progress': ...}]. *)
Record report : Type := { id : Z; progress : Q }.

Definition compute_correct_words_till_mistype (prompt typed : list string)
  : result Z :=
  for_each (range (length typed))
    (fun i typed_correctly_till_mistype =>
       t ← index typed i;
       p ← index prompt i;
       if String.eqb t p
       then Ok (Next (typed_correctly_till_mistype + 1))
       else Ok (Break typed_correctly_till_mistype))
    0.

Definition get_progress_ratio (correctly_typed_till_mistype : Z)
  (prompt : list string) : result Q :=
  truediv correctly_typed_till_mistype (Z.of_nat (length prompt)).

Definition compute_progress_ratio (prompt typed : list string) : result Q :=
  correctly_typed_till_mistype ← compute_correct_words_till_mistype prompt typed;
  get_progress_ratio correctly_typed_till_mistype prompt.

(** [upload] acts on the state [W] of the multiplayer server. *)
Definition report_progress {W : Type} (typed prompt : list string) (user_id : Z)
  (upload : report -> W -> W) (server : W) : result (Q * W) :=
  progress_ratio ← compute_progress_ratio prompt typed;
  Ok (progress_ratio, upload {| id := user_id; progress := progress_ratio |} server).

(** *** The store of list objects

    The lists of a match are Python objects that the caller still holds, and
    [fastest_words] appends to lists: list objects live in a store, at the
    position given by their reference.  A new object goes to the end. *)
Abbreviation loc := nat.

(** A number of a time list: a Python integer, or one of the floats
    [math.inf], [-math.inf] and [nan], which the assertions of [match] admit
    as well.  The finite floats are outside this model. *)
Inductive number : Type :=
| Int (z : Z)
| PosInf
| NegInf
| NaN.

(** The least integer that rounds to no float: an operation that mixes an
    integer of this magnitude or more with a float raises [OverflowError]
    when it converts the integer. *)
Definition float_overflow : Z := 2 ^ 1024 - 2 ^ 970.

(** The conversion of an integer operand next to a float operand. *)
Definition to_float (x : Z) : result unit :=
  if Z.abs x <? float_overflow then Ok tt else Raise OverflowError.

(** [a < b] on two numbers: false as soon as one of them is [nan].  An
    integer and a float are compared exactly, without a conversion. *)
Definition number_lt (a b : number) : bool :=
  match a, b with
  | NaN, _ | _, NaN => false
  | Int x, Int y => x <? y
  | PosInf, _ => false
  | _, PosInf => true
  | _, NegInf => false
  | NegInf, Int _ => true
  end.

(** [a - b] on two numbers: exact on two integers; next to a float, an
    integer is converted first, and the result is an infinity or [nan]. *)
Definition number_sub (a b : number) : result number :=
  match a, b with
  | Int x, Int y => Ok (Int (x - y))
  | Int x, PosInf => _ ← to_float x; Ok NegInf
  | Int x, NegInf => _ ← to_float x; Ok PosInf
  | Int x, NaN => _ ← to_float x; Ok NaN
  | PosInf, Int y => _ ← to_float y; Ok PosInf
  | NegInf, Int y => _ ← to_float y; Ok NegInf
  | NaN, Int y => _ ← to_float y; Ok NaN
  | PosInf, NegInf => Ok PosInf
  | NegInf, PosInf => Ok NegInf
  | _, _ => Ok NaN
  end.

Inductive obj : Type :=
| StrList (ws : list string)
| NumList (ts : list number)
| RefList (rs : list loc).

Abbreviation heap := (list obj).

Definition alloc (o : obj) (h : heap) : loc * heap := (length h, h ++ [o]).

Definition str_list (h : heap) (l : loc) : result (list string) :=
  match h !! l with
  | Some (StrList ws) => Ok ws
  | _ => Raise TypeError
  end.

Definition num_list (h : heap) (l : loc) : result (list number) :=
  match h !! l with
  | Some (NumList ts) => Ok ts
  | _ => Raise TypeError
  end.

Definition ref_list (h : heap) (l : loc) : result (list loc) :=
  match h !! l with
  | Some (RefList rs) => Ok rs
  | _ => Raise TypeError
  end.

(** [l.append(word)]. *)
Definition append (l : loc) (word : string) (h : heap) : result heap :=
  match h !! l with
  | Some (StrList ws) => Ok (<[l := StrList (ws ++ [word])]> h)
  | _ => Raise TypeError
  end.

(** The match dictionary [{"words": words, "times": times}]: it holds the
    two lists by reference. *)
Record Match : Type := { words : loc; times : loc }.

(** [all([len(t) == len(words) for t in times])], reading each list. *)
Fixpoint all_times_long (h : heap) (n : nat) (times : list loc) : bool :=
  match times with
  | [] => true
  | t :: times' =>
      match h !! t with
      | Some (NumList ts) => (length ts =? n)%nat && all_times_long h n times'
      | _ => false
      end
  end.

(** [match(words, times)]: the kinds of the lists are what the first three
    assertions check. *)
Definition match_ (words times : loc) (h : heap) : result Match :=
  match h !! words, h !! times with
  | Some (StrList ws), Some (RefList rs) =>
      _ ← assert (all_times_long h (length ws) rs);
      Ok {| words := words; times := times |}
  | _, _ => Raise AssertionError
  end.

Definition get_all_words (m : Match) : loc := words m.

Definition get_all_times (m : Match) : loc := times m.

Definition get_word (m : Match) (word_index : nat) (h : heap) : result string :=
  ws ← str_list h (words m);
  _ ← assert (word_index <? length ws)%nat;
  index ws word_index.

Definition time (m : Match) (player_num word_index : nat) (h : heap)
  : result number :=
  ws ← str_list h (words m);
  _ ← assert (word_index <? length ws)%nat;
  rs ← ref_list h (times m);
  _ ← assert (player_num <? length rs)%nat;
  player ← index rs player_num;
  ts ← num_list h player;
  index ts word_index.

Definition compute_fastest_words_for_each_player (fastest_words_per_player : loc)
  (m : Match) (player_count word_index : nat) (h : heap) : result heap :=
  found ← for_each (range player_count)
    (fun player_index '(min_time_per_word_for_player, player, word) =>
       current_word_time ← time m player_index word_index h;
       if number_lt current_word_time min_time_per_word_for_player
       then word' ← get_word m word_index h;
            Ok (Next (current_word_time, player_index, word'))
       else Ok (Next (min_time_per_word_for_player, player, word)))
    (PosInf, 0%nat, "");
  let '(_, player, word) := found in
  lists ← ref_list h fastest_words_per_player;
  target ← index lists player;
  append target word h.

(** [[[] for _ in range(n)]]: a new empty list per turn. *)
Fixpoint fresh_lists (n : nat) (h : heap) : list loc * heap :=
  match n with
  | O => ([], h)
  | S n' =>
      let '(l, h1) := alloc (StrList []) h in
      let '(ls, h2) := fresh_lists n' h1 in
      (l :: ls, h2)
  end.

Definition fastest_words (m : Match) (h : heap) : result (loc * heap) :=
  times ← ref_list h (get_all_times m);
  let player_count := length times in
  words ← str_list h (get_all_words m);
  let word_count := length words in
  let '(lists, h1) := fresh_lists player_count h in
  let '(fastest_words_per_player, h2) := alloc (RefList lists) h1 in
  h3 ← for_each (range word_count)
    (fun word_index h' =>
       h'' ← compute_fastest_words_for_each_player
               fastest_words_per_player m player_count word_index h';
       Ok (Next h''))
    h2;
  Ok (fastest_words_per_player, h3).

End Progress.

(** ** The recursion of the difference functions, made explicit *)

Module Recursion.

(** One activation record of a difference function: its three arguments. *)
Definition call : Type := string * string * Z.

(** The recursive calls that the body of [feline_fixes] makes. *)
Definition feline_fixes_calls (typed source : string) (limit : Z) : list call :=
  if limit <? 0 then []
  else match typed, source with
       | String t0 typed', String s0 source' =>
           if Ascii.eqb t0 s0
           then [(typed', source', limit)]
           else [(typed', source', limit - 1)]
       | _, _ => []
       end.

(** The recursive calls that the body of [minimum_mewtations] makes. *)
Definition minimum_mewtations_calls (start goal : string) (limit : Z) : list call :=
  if limit <? 0 then []
  else match start, goal with
       | String s0 start', String g0 goal' =>
           if Ascii.eqb g0 s0
           then [(start', goal', limit)]
           else [(start, goal', limit - 1);
                 (start', goal, limit - 1);
                 (start', goal', limit - 1)]
       | _, _ => []
       end.

(** Depth of the recursion below one activation: 0 when the body returns
    without a recursive call. *)
Fixpoint feline_fixes_depth (typed source : string) (limit : Z) {struct typed} : nat :=
  if limit <? 0 then 0%nat
  else match typed, source with
       | String t0 typed', String s0 source' =>
           if Ascii.eqb t0 s0
           then S (feline_fixes_depth typed' source' limit)
           else S (feline_fixes_depth typed' source' (limit - 1))
       | _, _ => 0%nat
       end.

Fixpoint minimum_mewtations_depth (start : string) : string -> Z -> nat :=
  fix on_goal (goal : string) (limit : Z) {struct goal} : nat :=
    if limit <? 0 then 0%nat
    else match start, goal with
         | String s0 start', String g0 goal' =>
             if Ascii.eqb g0 s0
             then S (minimum_mewtations_depth start' goal' limit)
             else S (Nat.max (on_goal goal' (limit - 1))
                       (Nat.max (minimum_mewtations_depth start' goal (limit - 1))
                                (minimum_mewtations_depth start' goal' (limit - 1))))
         | _, _ => 0%nat
         end.

(** The two functions run on a stack of [frames] activation records: every
    call takes one, and a call that finds none left fails. *)
Fixpoint feline_fixes_on (frames : nat) (typed source : string) (limit : Z)
  : option Z :=
  match frames with
  | O => None
  | S frames' =>
      if limit <? 0 then Some 0
      else match typed, source with
           | String t0 typed', String s0 source' =>
               if Ascii.eqb t0 s0
               then feline_fixes_on frames' typed' source' limit
               else r ← feline_fixes_on frames' typed' source' (limit - 1);
                    Some (1 + r)
           | _, _ => Some (len source + len typed)
           end
  end.

Fixpoint minimum_mewtations_on (frames : nat) (start goal : string) (limit : Z)
  : option Z :=
  match frames with
  | O => None
  | S frames' =>
      if limit <? 0 then Some 0
      else match start, goal with
           | String s0 start', String g0 goal' =>
               if Ascii.eqb g0 s0
               then minimum_mewtations_on frames' start' goal' limit
               else add ← minimum_mewtations_on frames' start goal' (limit - 1);
                    remove ← minimum_mewtations_on frames' start' goal (limit - 1);
                    substitute ← minimum_mewtations_on frames' start' goal' (limit - 1);
                    Some (1 + Z.min add (Z.min remove substitute))
           | _, _ => Some (len goal + len start)
           end
  end.

End Recursion.

(** ** Reference notions for the difference functions *)

(** One single-character operation on a string: insert a character, delete a
    character, or substitute a character, at any position. *)
Inductive edit_step : string -> string -> Prop :=
| step_insert c s : edit_step s (String c s)
| step_delete c s : edit_step (String c s) s
| step_substitute c d s : edit_step (String c s) (String d s)
| step_under c s t : edit_step s t -> edit_step (String c s) (String c t).

(** [edits n s t]: [n] single-character operations transform [s] into [t]. *)
Inductive edits : nat -> string -> string -> Prop :=
| edits_done s : edits 0 s s
| edits_step n s t u : edit_step s t -> edits n t u -> edits (S n) s u.

(** The edit distance: the minimum number of operations. *)
Definition edit_distance (s g : string) (d : nat) : Prop :=
  edits d s g /\ forall n, edits n s g -> (d <= n)%nat.

(** The recursion of [minimum_mewtations] without a limit. *)
Fixpoint lev (s : string) : string -> nat :=
  fix on_goal (g : string) {struct g} : nat :=
    match s, g with
    | String s0 s', String g0 g' =>
        if Ascii.eqb g0 s0 then lev s' g'
        else S (Nat.min (on_goal g') (Nat.min (lev s' g) (lev s' g')))
    | _, _ => (String.length g + String.length s)%nat
    end.

(** The recursion of [feline_fixes] without a limit. *)
Fixpoint ham (t s : string) {struct t} : nat :=
  match t, s with
  | String t0 t', String s0 s' =>
      if Ascii.eqb t0 s0 then ham t' s' else S (ham t' s')
  | _, _ => (String.length s + String.length t)%nat
  end.


(** The number of positions below both lengths at which the two strings hold
    different characters. *)
Definition differing_positions (typed source : string) : nat :=
  List.length
    (List.filter
       (fun i => negb (bool_decide (String.get i typed = String.get i source)))
       (seq 0 (Nat.min (String.length typed) (String.length source)))).

(** The absolute difference of the two lengths. *)
Definition length_gap (typed source : string) : nat :=
  (Nat.max (String.length typed) (String.length source)
   - Nat.min (String.length typed) (String.length source))%nat.

(** ** Reference notions for scoring, autocorrect and the match *)

(** The number of positions below both lengths at which two lists of words
    hold different words. *)
Definition mistyped_positions (typed_words source_words : list string) : nat :=
  List.length
    (List.filter
       (fun i => negb (bool_decide (typed_words !! i = source_words !! i)))
       (seq 0 (Nat.min (length typed_words) (length source_words)))).

(** The number of leading words of [typed] that equal the word of [prompt]
    at their position. *)
Fixpoint leading_matches (typed prompt : list string) : nat :=
  match typed, prompt with
  | t :: typed', p :: prompt' =>
      if String.eqb t p then S (leading_matches typed' prompt') else 0%nat
  | _, _ => 0%nat
  end.

(** [best] is the first word of [word_list] at the least difference [d]. *)
Definition first_minimum (d : string -> Z) (word_list : list string)
  (best : string) : Prop :=
  exists before after,
    word_list = before ++ best :: after /\
    (forall w, In w before -> d best < d w) /\
    (forall w, In w after -> d best <= d w).

(** The time of player [p] for the word at index [j]. *)
Definition time_of {A : Type} (tss : list (list A)) (p j : nat) : option A :=
  ts ← tss !! p; ts !! j.

(** Lists of integer times, as lists of numbers. *)
Definition as_numbers (zss : list (list Z)) : list (list Progress.number) :=
  (fun zs : list Z => Progress.Int <$> zs) <$> zss.

(** Player [p] is the first player with the least time for word [j]. *)
Definition is_fastest (tss : list (list Z)) (j p : nat) : Prop :=
  exists t, time_of tss p j = Some t /\
    forall q t', time_of tss q j = Some t' ->
      t <= t' /\ ((q < p)%nat -> t < t').

(** The words won by player [p], in the order of the prompt, when word [j]
    goes to player [winner j]. *)
Definition words_won (ws : list string) (winner : nat -> nat) (p : nat)
  : list string :=
  omap (fun j => if (winner j =? p)%nat then ws !! j else None)
    (seq 0 (length ws)).

(** In the store [h], the match [m] has the words [ws] and, player by
    player, the times [tss]. *)
Definition match_at (h : Progress.heap) (m : Progress.Match)
  (ws : list string) (tss : list (list Progress.number)) : Prop :=
  h !! Progress.words m = Some (Progress.StrList ws) /\
  exists rs, h !! Progress.times m = Some (Progress.RefList rs) /\
    Forall2 (fun r ts => h !! r = Some (Progress.NumList ts)) rs tss.

(** The store after [fastest_words]: the store before, then one new list of
    words per player, then the list that holds them. *)
Definition with_fastest (h : Progress.heap) (lists : list (list string))
  : Progress.heap :=
  h ++ (Progress.StrList <$> lists)
    ++ [Progress.RefList (seq (length h) (length lists))].

(** ** Phase 1: paragraph selection *)

Module Paragraphs.

(** [pick(paragraphs, select, k)]; [k] is any Python integer. *)
Fixpoint pick (paragraphs : list string) (select : string -> bool) (k : Z)
  : string :=
  match paragraphs with
  | [] => ""
  | paragraph :: paragraphs' =>
      if select paragraph
      then if k =? 0 then paragraph else pick paragraphs' select (k - 1)
      else pick paragraphs' select k
  end.

Section About.

(** [lower] and [remove_punctuation] of [utils] are not among the sources:
    the selector is modelled for any two such functions. *)
Variable lower : string -> string.
Variable remove_punctuation : string -> string.

Definition apply_changes_on (paragraph : string) : list string :=
  let paragraph := lower paragraph in
  let paragraph := remove_punctuation paragraph in
  Scorer.split paragraph.

(** [about(topic)]: the assertion runs when the selector is built. *)
Definition about (topic : list string) : result (string -> bool) :=
  _ ← assert (forallb (fun x => String.eqb (lower x) x) topic);
  Ok (fun paragraph =>
        let paragraph := apply_changes_on paragraph in
        existsb (fun word => existsb (String.eqb (lower word)) paragraph) topic).

End About.

End Paragraphs.

(** ** Phase 3: timing data *)

Module Timing.

Import Progress.

(** [l.append(t)] on a list of numbers. *)
Definition append_num (l : loc) (t : number) (h : heap) : result heap :=
  match h !! l with
  | Some (NumList ts) => Ok (<[l := NumList (ts ++ [t])]> h)
  | _ => Raise TypeError
  end.

(** [l += rs] on a list of lists: [l] is extended in place.  The list
    display on the right of [+=] is dropped at once and gets no place in
    the store. *)
Definition extend_refs (l : loc) (rs : list loc) (h : heap) : result heap :=
  match h !! l with
  | Some (RefList rs0) => Ok (<[l := RefList (rs0 ++ rs)]> h)
  | _ => Raise TypeError
  end.

Definition get_time_per_player (times : loc) (h : heap) : result (loc * heap) :=
  let '(player_time, h1) := alloc (NumList []) h in
  ts ← num_list h1 times;
  h2 ← for_each (range (length ts - 1))
    (fun i h' =>
       ts' ← num_list h' times;
       later ← index ts' (i + 1);
       sooner ← index ts' i;
       duration ← number_sub later sooner;
       h'' ← append_num player_time duration h';
       Ok (Next h''))
    h1;
  Ok (player_time, h2).

Definition time_per_word (words times_per_player : loc) (h : heap)
  : result (Match * heap) :=
  let p := times_per_player in
  let '(times, h1) := alloc (RefList []) h in
  ps ← ref_list h1 p;
  h2 ← for_each (range (length ps))
    (fun i h' =>
       ps' ← ref_list h' p;
       player ← index ps' i;
       made ← get_time_per_player player h';
       let '(player_time, h'') := made in
       h3 ← extend_refs times [player_time] h'';
       Ok (Next h3))
    h1;
  m ← match_ words times h2;
  Ok (m, h2).

End Timing.

(** ** Reference notions for selection and timing *)

(** The differences between consecutive timestamps. *)
Definition durations (ts : list Z) : list Z := zip_with Z.sub (tail ts) ts.

(** The sum of a list of numbers. *)
Definition total (ts : list Z) : Z := foldr Z.add 0 ts.

(** The store after [time_per_word]: the store before, then the new list of
    time lists, then one new list of durations per player. *)
Definition with_times (h : Progress.heap) (tss : list (list Progress.number))
  : Progress.heap :=
  h ++ [Progress.RefList (seq (S (length h)) (length tss))]
    ++ (Progress.NumList <$> tss).

(** * Properties *)

Lemma minimum_mewtations_eq start goal limit :
  minimum_mewtations start goal limit =
    if limit <? 0 then 0
    else match start, goal with
         | String s0 start', String g0 goal' =>
             if Ascii.eqb g0 s0
             then minimum_mewtations start' goal' limit
             else 1 + Z.min (minimum_mewtations start goal' (limit - 1))
                        (Z.min (minimum_mewtations start' goal (limit - 1))
                               (minimum_mewtations start' goal' (limit - 1)))
         | _, _ => len goal + len start
         end.
Proof. destruct start, goal; reflexivity. Qed.

Example mm_cats : minimum_mewtations "cats" "scat" 10 = 2.
Proof. vm_compute. reflexivity. Qed.

Example ff_pill : feline_fixes "pill" "pillage" 10 = 3.
Proof. reflexivity. Qed.


Section EditDistance.

Lemma lev_cons a s b g :
  lev (String a s) (String b g) =
    if Ascii.eqb b a then lev s g
    else S (Nat.min (lev (String a s) g) (Nat.min (lev s (String b g)) (lev s g))).
Proof. reflexivity. Qed.

Lemma lev_nil_r s : lev s "" = String.length s.
Proof. destruct s; reflexivity. Qed.

Lemma lev_nil_l g : lev "" g = (String.length g + 0)%nat.
Proof. destruct g; reflexivity. Qed.

Lemma lev_refl s : lev s s = 0%nat.
Proof.
  induction s as [|a s IH]; [reflexivity|].
  rewrite lev_cons, Ascii.eqb_refl. exact IH.
Qed.

(** Adding or removing one leading character moves [lev] by at most one. *)
Lemma lev_head n :
  forall s g, (String.length s + String.length g = n)%nat ->
    (forall c, lev s g <= S (lev (String c s) g))%nat /\
    (forall c, lev s g <= S (lev s (String c g)))%nat /\
    (forall c, lev (String c s) g <= S (lev s g))%nat /\
    (forall c, lev s (String c g) <= S (lev s g))%nat.
Proof.
  induction n as [n IH] using lt_wf_ind. intros s g Hn.
  assert (Hs : forall s' a, s = String a s' ->
            (forall c, lev s' g <= S (lev (String c s') g))%nat /\
            (forall c, lev s' g <= S (lev s' (String c g)))%nat /\
            (forall c, lev (String c s') g <= S (lev s' g))%nat /\
            (forall c, lev s' (String c g) <= S (lev s' g))%nat).
  { intros s' a ->. apply (IH (String.length s' + String.length g)%nat);
      [cbn in Hn; lia | reflexivity]. }
  assert (Hg : forall g' b, g = String b g' ->
            (forall c, lev s g' <= S (lev (String c s) g'))%nat /\
            (forall c, lev s g' <= S (lev s (String c g')))%nat /\
            (forall c, lev (String c s) g' <= S (lev s g'))%nat /\
            (forall c, lev s (String c g') <= S (lev s g'))%nat).
  { intros g' b ->. apply (IH (String.length s + String.length g')%nat);
      [cbn in Hn; lia | reflexivity]. }
  clear IH Hn. repeat split; intros c.
  - (* drop the head of [s] *)
    destruct g as [|e g']; [rewrite !lev_nil_r; cbn; lia|].
    destruct (Hg g' e eq_refl) as (R1 & R2 & A1 & A2).
    rewrite (lev_cons c s e g'). destruct (Ascii.eqb e c).
    + apply A2.
    + specialize (R1 c). specialize (A2 e). lia.
  - (* drop the head of [g] *)
    destruct s as [|a s']; [rewrite !lev_nil_l; cbn; lia|].
    destruct (Hs s' a eq_refl) as (R1 & R2 & A1 & A2).
    rewrite (lev_cons a s' c g). destruct (Ascii.eqb c a).
    + apply A1.
    + specialize (R2 c). specialize (A1 a). lia.
  - (* add a head to [s] *)
    destruct g as [|e g']; [rewrite !lev_nil_r; cbn; lia|].
    destruct (Hg g' e eq_refl) as (R1 & R2 & A1 & A2).
    rewrite (lev_cons c s e g'). destruct (Ascii.eqb e c).
    + apply R2.
    + lia.
  - (* add a head to [g] *)
    destruct s as [|a s']; [rewrite !lev_nil_l; cbn; lia|].
    destruct (Hs s' a eq_refl) as (R1 & R2 & A1 & A2).
    rewrite (lev_cons a s' c g). destruct (Ascii.eqb c a).
    + apply R1.
    + lia.
Qed.

Lemma lev_drop_l c s g : (lev s g <= S (lev (String c s) g))%nat.
Proof. apply (lev_head _ s g eq_refl). Qed.

Lemma lev_drop_r c s g : (lev s g <= S (lev s (String c g)))%nat.
Proof. apply (lev_head _ s g eq_refl). Qed.

Lemma lev_add_l c s g : (lev (String c s) g <= S (lev s g))%nat.
Proof. apply (lev_head _ s g eq_refl). Qed.

Lemma lev_add_r c s g : (lev s (String c g) <= S (lev s g))%nat.
Proof. apply (lev_head _ s g eq_refl). Qed.

Lemma lev_subst c d s g : (lev (String c s) g <= S (lev (String d s) g))%nat.
Proof.
  induction g as [|e g IH]; [rewrite !lev_nil_r; cbn; lia|].
  rewrite (lev_cons c s e g), (lev_cons d s e g).
  pose proof (lev_drop_l d s g). pose proof (lev_drop_r e s g).
  destruct (Ascii.eqb e c), (Ascii.eqb e d); lia.
Qed.

Lemma lev_step s t : edit_step s t -> forall g, (lev s g <= S (lev t g))%nat.
Proof.
  induction 1 as [c s|c s|c d s|c s t Hst IH]; intros g.
  - apply lev_drop_l.
  - apply lev_add_l.
  - apply lev_subst.
  - induction g as [|e g IHg].
    + rewrite !lev_nil_r. specialize (IH ""). rewrite !lev_nil_r in IH. cbn. lia.
    + rewrite (lev_cons c s e g), (lev_cons c t e g).
      pose proof (IH g). pose proof (IH (String e g)).
      destruct (Ascii.eqb e c); lia.
Qed.

Lemma lev_lower n s g : edits n s g -> (lev s g <= n)%nat.
Proof.
  induction 1 as [s|n s t u Hst _ IH]; [rewrite lev_refl; lia|].
  pose proof (lev_step s t Hst u). lia.
Qed.

Lemma edits_app n m s t u : edits n s t -> edits m t u -> edits (n + m) s u.
Proof.
  induction 1 as [s|n s t' t Hst _ IH]; intros Htu; [exact Htu|].
  cbn. eapply edits_step; eauto.
Qed.

Lemma edits_snoc n s t u : edits n s t -> edit_step t u -> edits (S n) s u.
Proof.
  intros Hst Htu. replace (S n) with (n + 1)%nat by lia.
  eapply edits_app; [exact Hst|]. eapply edits_step; [exact Htu|constructor].
Qed.

Lemma edits_under c n s t : edits n s t -> edits n (String c s) (String c t).
Proof.
  induction 1 as [s|n s t u Hst _ IH]; [constructor|].
  eapply edits_step; [apply step_under; exact Hst|exact IH].
Qed.

Lemma edits_delete_all s : edits (String.length s) s "".
Proof.
  induction s as [|a s IH]; [constructor|].
  cbn. eapply edits_step; [apply step_delete|exact IH].
Qed.

Lemma edits_insert_all g : edits (String.length g) "" g.
Proof.
  induction g as [|b g IH]; [constructor|].
  cbn. eapply edits_snoc; [exact IH|apply step_insert].
Qed.

Lemma lev_upper s g : edits (lev s g) s g.
Proof.
  revert g. induction s as [|a s IHs]; intros g.
  - rewrite lev_nil_l, Nat.add_0_r. apply edits_insert_all.
  - induction g as [|b g IHg].
    + rewrite lev_nil_r. apply edits_delete_all.
    + rewrite lev_cons. destruct (Ascii.eqb_spec b a) as [->|Hne].
      * apply edits_under, IHs.
      * destruct (Nat.min_spec (lev (String a s) g)
                    (Nat.min (lev s (String b g)) (lev s g))) as [[_ ->]|[_ ->]].
        -- eapply edits_snoc; [exact IHg|apply step_insert].
        -- destruct (Nat.min_spec (lev s (String b g)) (lev s g)) as [[_ ->]|[_ ->]].
           ++ eapply edits_step; [apply step_delete|apply IHs].
           ++ eapply edits_step; [apply (step_substitute a b)|].
              apply edits_under, IHs.
Qed.

Lemma lev_edit_distance s g : edit_distance s g (lev s g).
Proof. split; [apply lev_upper|intros n Hn; apply lev_lower, Hn]. Qed.

End EditDistance.

Section Limits.

Lemma feline_fixes_eq typed source limit :
  feline_fixes typed source limit =
    if limit <? 0 then 0
    else match typed, source with
         | String t0 typed', String s0 source' =>
             if Ascii.eqb t0 s0
             then feline_fixes typed' source' limit
             else 1 + feline_fixes typed' source' (limit - 1)
         | _, _ => len source + len typed
         end.
Proof. destruct typed; reflexivity. Qed.

Lemma ham_cons a t b s :
  ham (String a t) (String b s) = if Ascii.eqb a b then ham t s else S (ham t s).
Proof. reflexivity. Qed.

Lemma ham_nil_r t : ham t "" = (0 + String.length t)%nat.
Proof. destruct t; reflexivity. Qed.

(** A pruned result never exceeds the unpruned one, and it is the unpruned
    one unless that is above the limit. *)
Lemma minimum_mewtations_lev s g limit :
  Z.min (Z.of_nat (lev s g)) (limit + 1) <= minimum_mewtations s g limit
    <= Z.of_nat (lev s g).
Proof.
  revert g limit. induction s as [|a s IHs]; intros g.
  - intros limit. rewrite minimum_mewtations_eq, lev_nil_l. unfold len.
    destruct (Z.ltb_spec limit 0); cbn [String.length]; lia.
  - induction g as [|b g IHg]; intros limit.
    + rewrite minimum_mewtations_eq, lev_nil_r. unfold len.
      destruct (Z.ltb_spec limit 0); cbn [String.length]; lia.
    + rewrite minimum_mewtations_eq, lev_cons.
      destruct (Z.ltb_spec limit 0); [lia|].
      destruct (Ascii.eqb b a); [apply IHs|].
      pose proof (IHg (limit - 1)). pose proof (IHs (String b g) (limit - 1)).
      pose proof (IHs g (limit - 1)). lia.
Qed.

Lemma feline_fixes_ham t s limit :
  Z.min (Z.of_nat (ham t s)) (limit + 1) <= feline_fixes t s limit
    <= Z.of_nat (ham t s).
Proof.
  revert s limit. induction t as [|a t IH]; intros s limit.
  - rewrite feline_fixes_eq. unfold len.
    destruct (Z.ltb_spec limit 0); cbn [ham String.length]; lia.
  - destruct s as [|b s].
    + rewrite feline_fixes_eq, ham_nil_r. unfold len.
      destruct (Z.ltb_spec limit 0); cbn [String.length]; lia.
    + rewrite feline_fixes_eq, ham_cons.
      destruct (Z.ltb_spec limit 0); [lia|].
      pose proof (IH s limit). pose proof (IH s (limit - 1)).
      destruct (Ascii.eqb a b); lia.
Qed.

(** The full distance is below the substitution-only one at every limit. *)
Lemma minimum_mewtations_le_feline_fixes s g limit :
  minimum_mewtations s g limit <= feline_fixes s g limit.
Proof.
  revert g limit. induction s as [|a s IH]; intros g limit.
  - rewrite minimum_mewtations_eq, feline_fixes_eq.
    destruct (limit <? 0); lia.
  - destruct g as [|b g].
    + rewrite minimum_mewtations_eq, feline_fixes_eq. destruct (limit <? 0); lia.
    + rewrite minimum_mewtations_eq, feline_fixes_eq.
      destruct (limit <? 0); [lia|].
      rewrite (Ascii.eqb_sym b a). destruct (Ascii.eqb a b); [apply IH|].
      pose proof (IH g (limit - 1)). lia.
Qed.

Lemma ham_le_max t s :
  (ham t s <= Nat.max (String.length t) (String.length s))%nat.
Proof.
  revert s. induction t as [|a t IH]; intros [|b s]; cbn [ham String.length]; try lia.
  specialize (IH s). destruct (Ascii.eqb a b); lia.
Qed.

Lemma lev_le_ham s g : (lev s g <= ham s g)%nat.
Proof.
  revert g. induction s as [|a s IH]; intros [|b g]; try (cbn; lia).
  rewrite lev_cons, ham_cons, (Ascii.eqb_sym b a). specialize (IH g).
  destruct (Ascii.eqb a b); lia.
Qed.

Lemma filter_seq_shift (f : nat -> bool) n a :
  List.length (List.filter f (seq (S a) n)) =
  List.length (List.filter (fun i => f (S i)) (seq a n)).
Proof.
  revert a. induction n as [|n IH]; intros a; [reflexivity|].
  cbn [seq List.filter]. destruct (f (S a)); cbn [List.length]; rewrite IH; reflexivity.
Qed.

Lemma ham_positions t s :
  ham t s = (differing_positions t s + length_gap t s)%nat.
Proof.
  unfold differing_positions, length_gap.
  revert s. induction t as [|a t IH]; intros [|b s]; try (cbn; lia).
  rewrite ham_cons, IH. cbn [String.length Nat.min Nat.max Nat.sub seq List.filter String.get].
  destruct (Ascii.eqb_spec a b) as [->|Hne].
  - rewrite bool_decide_eq_true_2 by reflexivity. cbn [negb].
    rewrite filter_seq_shift. reflexivity.
  - rewrite bool_decide_eq_false_2 by congruence. cbn [negb List.length].
    rewrite filter_seq_shift. reflexivity.
Qed.

End Limits.

(** With a limit that is large enough the pruning base is never reached, as
    in [final_diff]. *)
Corollary final_diff_lev typed source limit :
  final_diff typed source limit = Z.of_nat (lev typed source).
Proof.
  unfold final_diff, len.
  pose proof (minimum_mewtations_lev typed source
    (Z.max (Z.of_nat (String.length typed))
       (Z.max (Z.of_nat (String.length source)) FINAL_DIFF_LIMIT))).
  pose proof (lev_le_ham typed source). pose proof (ham_le_max typed source).
  lia.
Qed.

(** Above the limit the result is not a distance: two substitutions are
    needed here, and the call with limit 0 returns 1. *)
Example minimum_mewtations_pruned :
  minimum_mewtations "ab" "cd" 0 = 1 /\ lev "ab" "cd" = 2%nat.
Proof. split; reflexivity. Qed.

(** C1: when [minimum_mewtations start goal limit] is called with
    [limit >= 0] and returns a value [r <= limit], then [r] is the edit
    distance from [start] to [goal]: [r] single-character insertions,
    deletions and substitutions transform [start] into [goal], and no
    shorter sequence of such operations does.  The pruning base, which
    returns 0 below a negative limit, never shows in such a result. *)
Theorem minimum_mewtations_within_limit start goal limit r :
  0 <= limit ->
  minimum_mewtations start goal limit = r ->
  r <= limit ->
  exists d : nat, r = Z.of_nat d /\ edit_distance start goal d.
Proof.
  intros Hlimit <- Hr. exists (lev start goal).
  split; [|apply lev_edit_distance].
  pose proof (minimum_mewtations_lev start goal limit). lia.
Qed.

Lemma minimum_mewtations_within_limit_witness :
  exists d : nat, 2 = Z.of_nat d /\ edit_distance "cats" "scat" d.
Proof.
  apply (minimum_mewtations_within_limit "cats" "scat" 2 2);
    [lia | vm_compute; reflexivity | lia].
Defined.

(** C2: with a limit of at least [len(start) + len(goal)] neither function
    prunes: [minimum_mewtations] returns the unpruned recursion [lev],
    [feline_fixes] the unpruned recursion [ham], and the full distance is at
    most the substitution-only one. *)
Theorem minimum_mewtations_le_feline_fixes_large start goal L :
  len start + len goal <= L ->
  minimum_mewtations start goal L <= feline_fixes start goal L /\
  minimum_mewtations start goal L = Z.of_nat (lev start goal) /\
  feline_fixes start goal L = Z.of_nat (ham start goal).
Proof.
  intros HL. split; [apply minimum_mewtations_le_feline_fixes|].
  pose proof (minimum_mewtations_lev start goal L).
  pose proof (feline_fixes_ham start goal L).
  pose proof (lev_le_ham start goal). pose proof (ham_le_max start goal).
  unfold len in HL. lia.
Qed.

Lemma minimum_mewtations_le_feline_fixes_large_witness :
  minimum_mewtations "roses" "arose" 10 <= feline_fixes "roses" "arose" 10 /\
  minimum_mewtations "roses" "arose" 10 = Z.of_nat (lev "roses" "arose") /\
  feline_fixes "roses" "arose" 10 = Z.of_nat (ham "roses" "arose").
Proof.
  apply (minimum_mewtations_le_feline_fixes_large "roses" "arose" 10).
  vm_compute. discriminate.
Defined.

(** The limit of [feline_fixes] only drops at a mismatch, so it stays
    non-negative when it starts at the number of compared positions. *)
Lemma feline_fixes_exact t s limit :
  Z.of_nat (Nat.min (String.length t) (String.length s)) <= limit ->
  feline_fixes t s limit = Z.of_nat (ham t s).
Proof.
  revert s limit. induction t as [|a t IH]; intros s limit Hlimit.
  - rewrite feline_fixes_eq. unfold len.
    destruct (Z.ltb_spec limit 0); cbn [ham String.length Nat.min] in *; lia.
  - destruct s as [|b s].
    + rewrite feline_fixes_eq, ham_nil_r. unfold len.
      destruct (Z.ltb_spec limit 0); cbn [String.length Nat.min] in *; lia.
    + rewrite feline_fixes_eq, ham_cons. cbn [String.length Nat.min] in Hlimit.
      destruct (Z.ltb_spec limit 0); [lia|].
      destruct (Ascii.eqb a b).
      * apply IH. lia.
      * rewrite IH by lia. lia.
Qed.

(** C3: with a limit of at least [min(len(typed), len(source))],
    [feline_fixes] returns the number of positions below both lengths at
    which the two strings differ, plus the absolute difference of the
    lengths; [feline_fixes("pill", "pillage", 10)] is 3. *)
Theorem feline_fixes_positions typed source limit :
  Z.of_nat (Nat.min (String.length typed) (String.length source)) <= limit ->
  feline_fixes typed source limit
    = Z.of_nat (differing_positions typed source + length_gap typed source)
  /\ feline_fixes "pill" "pillage" 10 = 3.
Proof.
  intros Hlimit. split; [|reflexivity].
  rewrite <- ham_positions. apply feline_fixes_exact, Hlimit.
Qed.

Lemma feline_fixes_positions_witness :
  feline_fixes "range" "rungs" 5
    = Z.of_nat (differing_positions "range" "rungs" + length_gap "range" "rungs")
  /\ feline_fixes "pill" "pillage" 10 = 3.
Proof.
  apply (feline_fixes_positions "range" "rungs" 5). vm_compute. discriminate.
Defined.

Section RecursionDepth.

Import Recursion.

Lemma minimum_mewtations_depth_eq start goal limit :
  minimum_mewtations_depth start goal limit =
    if limit <? 0 then 0%nat
    else match start, goal with
         | String s0 start', String g0 goal' =>
             if Ascii.eqb g0 s0
             then S (minimum_mewtations_depth start' goal' limit)
             else S (Nat.max (minimum_mewtations_depth start goal' (limit - 1))
                       (Nat.max (minimum_mewtations_depth start' goal (limit - 1))
                                (minimum_mewtations_depth start' goal' (limit - 1))))
         | _, _ => 0%nat
         end.
Proof. destruct start, goal; reflexivity. Qed.

Lemma feline_fixes_depth_eq typed source limit :
  feline_fixes_depth typed source limit =
    if limit <? 0 then 0%nat
    else match typed, source with
         | String t0 typed', String s0 source' =>
             if Ascii.eqb t0 s0
             then S (feline_fixes_depth typed' source' limit)
             else S (feline_fixes_depth typed' source' (limit - 1))
         | _, _ => 0%nat
         end.
Proof. destruct typed; reflexivity. Qed.

(** The depth is one more than the deepest recursive call of the body. *)
Lemma feline_fixes_depth_calls typed source limit :
  feline_fixes_depth typed source limit =
    list_max (List.map (fun c : call => S (feline_fixes_depth c.1.1 c.1.2 c.2))
                (feline_fixes_calls typed source limit)).
Proof.
  rewrite feline_fixes_depth_eq. unfold feline_fixes_calls.
  destruct (limit <? 0); [reflexivity|].
  destruct typed as [|t0 typed']; [reflexivity|].
  destruct source as [|s0 source']; [reflexivity|].
  destruct (Ascii.eqb t0 s0); cbn; lia.
Qed.

Lemma minimum_mewtations_depth_calls start goal limit :
  minimum_mewtations_depth start goal limit =
    list_max (List.map (fun c : call => S (minimum_mewtations_depth c.1.1 c.1.2 c.2))
                (minimum_mewtations_calls start goal limit)).
Proof.
  rewrite minimum_mewtations_depth_eq. unfold minimum_mewtations_calls.
  destruct (limit <? 0); [reflexivity|].
  destruct start as [|s0 start']; [reflexivity|].
  destruct goal as [|g0 goal']; [reflexivity|].
  destruct (Ascii.eqb g0 s0); cbn [List.map list_max fold_right fst snd]; lia.
Qed.

(** A stack deeper than the recursion is enough, and is needed. *)
Lemma feline_fixes_on_depth frames typed source limit :
  feline_fixes_on frames typed source limit =
    if (feline_fixes_depth typed source limit <? frames)%nat
    then Some (feline_fixes typed source limit) else None.
Proof.
  revert typed source limit. induction frames as [|n IH]; intros typed source limit.
  - reflexivity.
  - rewrite feline_fixes_depth_eq, feline_fixes_eq. cbn [feline_fixes_on].
    destruct (limit <? 0); [reflexivity|].
    destruct typed as [|t0 typed']; [reflexivity|].
    destruct source as [|s0 source']; [reflexivity|].
    destruct (Ascii.eqb t0 s0); rewrite IH.
    + reflexivity.
    + change (S ?d <? S n)%nat with (d <? n)%nat.
      destruct (_ <? n)%nat; reflexivity.
Qed.

Lemma minimum_mewtations_on_depth frames start goal limit :
  minimum_mewtations_on frames start goal limit =
    if (minimum_mewtations_depth start goal limit <? frames)%nat
    then Some (minimum_mewtations start goal limit) else None.
Proof.
  revert start goal limit. induction frames as [|n IH]; intros start goal limit.
  - reflexivity.
  - rewrite minimum_mewtations_depth_eq, minimum_mewtations_eq.
    cbn [minimum_mewtations_on].
    destruct (limit <? 0); [reflexivity|].
    destruct start as [|s0 start']; [reflexivity|].
    destruct goal as [|g0 goal']; [reflexivity|].
    destruct (Ascii.eqb g0 s0); rewrite ?IH.
    + reflexivity.
    + change (S ?d <? S n)%nat with (d <? n)%nat.
      set (d1 := minimum_mewtations_depth (String s0 start') goal' (limit - 1)).
      set (d2 := minimum_mewtations_depth start' (String g0 goal') (limit - 1)).
      set (d3 := minimum_mewtations_depth start' goal' (limit - 1)).
      destruct (Nat.ltb_spec d1 n), (Nat.ltb_spec d2 n), (Nat.ltb_spec d3 n),
        (Nat.ltb_spec (Nat.max d1 (Nat.max d2 d3)) n);
        try reflexivity; lia.
Qed.

Lemma feline_fixes_depth_le typed source limit :
  (feline_fixes_depth typed source limit
   <= Nat.min (String.length typed) (String.length source))%nat.
Proof.
  revert source limit. induction typed as [|t0 typed IH]; intros source limit.
  - rewrite feline_fixes_depth_eq. destruct (limit <? 0); cbn; lia.
  - rewrite feline_fixes_depth_eq. destruct (limit <? 0); [lia|].
    destruct source as [|s0 source]; [cbn; lia|].
    pose proof (IH source limit). pose proof (IH source (limit - 1)).
    cbn [String.length]. destruct (Ascii.eqb t0 s0); lia.
Qed.

(** Two measures that every call of [minimum_mewtations] respects: a cost
    branch pays one unit of limit, and every branch shortens a string. *)
Lemma minimum_mewtations_depth_le start goal limit :
  -1 <= limit ->
  Z.of_nat (minimum_mewtations_depth start goal limit)
    <= limit + 1 + Z.min (len start) (len goal) /\
  2 * Z.of_nat (minimum_mewtations_depth start goal limit)
    <= len start + len goal + limit + 1.
Proof.
  unfold len. revert goal limit.
  induction start as [|s0 start IHs]; intros goal.
  - intros limit Hl. rewrite minimum_mewtations_depth_eq.
    destruct (limit <? 0); cbn [String.length]; lia.
  - induction goal as [|g0 goal IHg]; intros limit Hl.
    + rewrite minimum_mewtations_depth_eq.
      destruct (limit <? 0); cbn [String.length]; lia.
    + rewrite minimum_mewtations_depth_eq.
      destruct (Z.ltb_spec limit 0); [cbn [String.length]; lia|].
      pose proof (IHs goal limit). pose proof (IHs goal (limit - 1)).
      pose proof (IHs (String g0 goal) (limit - 1)). pose proof (IHg (limit - 1)).
      cbn [String.length] in *.
      destruct (Ascii.eqb g0 s0); lia.
Qed.

End RecursionDepth.

(** C8 (amended): both recursions terminate.  A recursive call keeps the
    limit after a free match and lowers it by one on a cost branch, and the
    depth of the recursion -- the number of nested recursive calls below the
    first call -- is at most [limit + max(len(start), len(goal))] when that
    sum is not negative, and 0 otherwise: a stack of one more frame than
    that lets both functions return their value.  A call with a negative
    limit returns without recursing: its body makes no recursive call, the
    depth is 0, and one frame is enough for it to return 0. *)
Theorem recursion_depth_bound start goal limit :
  let bound := Z.to_nat (Z.max 0 (limit + Z.max (len start) (len goal))) in
  Recursion.feline_fixes_on (S bound) start goal limit
    = Some (feline_fixes start goal limit) /\
  Recursion.minimum_mewtations_on (S bound) start goal limit
    = Some (minimum_mewtations start goal limit) /\
  (Recursion.feline_fixes_depth start goal limit <= bound)%nat /\
  (Recursion.minimum_mewtations_depth start goal limit <= bound)%nat /\
  (forall c, In c (Recursion.feline_fixes_calls start goal limit) ->
     exists a b, start = String a c.1.1 /\ goal = String b c.1.2 /\
       (a = b /\ c.2 = limit \/ a <> b /\ c.2 = limit - 1)) /\
  (forall c, In c (Recursion.minimum_mewtations_calls start goal limit) ->
     exists a b start' goal', start = String a start' /\ goal = String b goal' /\
       (a = b /\ c = (start', goal', limit) \/
        a <> b /\ c.2 = limit - 1 /\
          (c.1 = (start, goal') \/ c.1 = (start', goal) \/ c.1 = (start', goal')))) /\
  (limit < 0 ->
   Recursion.feline_fixes_calls start goal limit = [] /\
   Recursion.minimum_mewtations_calls start goal limit = [] /\
   Recursion.feline_fixes_depth start goal limit = 0%nat /\
   Recursion.minimum_mewtations_depth start goal limit = 0%nat /\
   Recursion.feline_fixes_on 1 start goal limit = Some 0 /\
   Recursion.minimum_mewtations_on 1 start goal limit = Some 0).
Proof.
  intros bound.
  assert (Hff : (Recursion.feline_fixes_depth start goal limit <= bound)%nat).
  { pose proof (feline_fixes_depth_le start goal limit) as Hd.
    rewrite feline_fixes_depth_eq in *. subst bound. unfold len.
    destruct (Z.ltb_spec limit 0); lia. }
  assert (Hmm : (Recursion.minimum_mewtations_depth start goal limit <= bound)%nat).
  { pose proof (minimum_mewtations_depth_le start goal limit) as Hd.
    rewrite minimum_mewtations_depth_eq in *. subst bound. unfold len in *.
    destruct (Z.ltb_spec limit 0); lia. }
  split; [|split; [|split; [exact Hff|split; [exact Hmm|split; [|split]]]]].
  - rewrite feline_fixes_on_depth.
    destruct (Nat.ltb_spec (Recursion.feline_fixes_depth start goal limit) (S bound));
      [reflexivity|lia].
  - rewrite minimum_mewtations_on_depth.
    destruct (Nat.ltb_spec (Recursion.minimum_mewtations_depth start goal limit) (S bound));
      [reflexivity|lia].
  - unfold Recursion.feline_fixes_calls. intros c Hc.
    destruct (limit <? 0); [destruct Hc|].
    destruct start as [|a start']; [destruct Hc|].
    destruct goal as [|b goal']; [destruct Hc|].
    exists a, b. destruct (Ascii.eqb_spec a b) as [Hab|Hab];
      destruct Hc as [<-|[]]; cbn; auto.
  - unfold Recursion.minimum_mewtations_calls. intros c Hc.
    destruct (limit <? 0); [destruct Hc|].
    destruct start as [|a start']; [destruct Hc|].
    destruct goal as [|b goal']; [destruct Hc|].
    exists a, b, start', goal'. split; [reflexivity|]. split; [reflexivity|].
    destruct (Ascii.eqb_spec b a) as [Hab|Hab].
    + destruct Hc as [<-|[]]. left. auto.
    + right. split; [congruence|].
      destruct Hc as [<-|[<-|[<-|[]]]]; cbn; auto.
  - intros Hneg. apply Z.ltb_lt in Hneg.
    rewrite feline_fixes_depth_eq, minimum_mewtations_depth_eq.
    unfold Recursion.feline_fixes_calls, Recursion.minimum_mewtations_calls.
    cbn [Recursion.feline_fixes_on Recursion.minimum_mewtations_on].
    rewrite Hneg. repeat split.
Qed.

Lemma recursion_depth_bound_witness :
  (exists a b start' goal',
     "cats" = String a start' /\ "scat" = String b goal' /\
     (a = b /\ ("cats", "cat", 1) = (start', goal', 2) \/
      a <> b /\ ("cats", "cat", 1).2 = 2 - 1 /\
        (("cats", "cat", 1).1 = ("cats", goal') \/
         ("cats", "cat", 1).1 = (start', "scat") \/
         ("cats", "cat", 1).1 = (start', goal')))) /\
  (exists a b,
     "pill" = String a ("ill", "illage", 10).1.1 /\
     "pillage" = String b ("ill", "illage", 10).1.2 /\
     (a = b /\ ("ill", "illage", 10).2 = 10 \/
      a <> b /\ ("ill", "illage", 10).2 = 10 - 1)) /\
  (Recursion.feline_fixes_calls "cat" "cot" (-1) = [] /\
   Recursion.minimum_mewtations_calls "cat" "cot" (-1) = [] /\
   Recursion.feline_fixes_depth "cat" "cot" (-1) = 0%nat /\
   Recursion.minimum_mewtations_depth "cat" "cot" (-1) = 0%nat /\
   Recursion.feline_fixes_on 1 "cat" "cot" (-1) = Some 0 /\
   Recursion.minimum_mewtations_on 1 "cat" "cot" (-1) = Some 0).
Proof.
  split; [|split].
  - apply (proj1 (proj2 (proj2 (proj2 (proj2 (proj2
             (recursion_depth_bound "cats" "scat" 2)))))) ("cats", "cat", 1)).
    left. reflexivity.
  - apply (proj1 (proj2 (proj2 (proj2 (proj2
             (recursion_depth_bound "pill" "pillage" 10))))) ("ill", "illage", 10)).
    left. reflexivity.
  - apply (proj2 (proj2 (proj2 (proj2 (proj2 (proj2
             (recursion_depth_bound "cat" "cot" (-1)))))))).
    reflexivity.
Defined.

(** C8 as first stated covers every integer limit.  At limit -4 on two
    words of three letters both functions return at once: their bodies make
    no recursive call, the depth is 0, and the one frame of the call itself
    is enough, and needed.  The bound [limit + max(len(start), len(goal))]
    is -1 there, below the depth 0 of the two recursions. *)
Lemma recursion_depth_negative_limit :
  -4 + Z.max (len "cat") (len "cot") = -1 /\
  Recursion.feline_fixes_calls "cat" "cot" (-4) = [] /\
  Recursion.minimum_mewtations_calls "cat" "cot" (-4) = [] /\
  Recursion.feline_fixes_depth "cat" "cot" (-4) = 0%nat /\
  Recursion.minimum_mewtations_depth "cat" "cot" (-4) = 0%nat /\
  Recursion.feline_fixes_on 1 "cat" "cot" (-4) = Some 0 /\
  Recursion.minimum_mewtations_on 1 "cat" "cot" (-4) = Some 0 /\
  Recursion.feline_fixes_on 0 "cat" "cot" (-4) = None /\
  Recursion.minimum_mewtations_on 0 "cat" "cot" (-4) = None /\
  ~ (Z.of_nat (Recursion.feline_fixes_depth "cat" "cot" (-4))
       <= -4 + Z.max (len "cat") (len "cot")) /\
  ~ (Z.of_nat (Recursion.minimum_mewtations_depth "cat" "cot" (-4))
       <= -4 + Z.max (len "cat") (len "cot")).
Proof.
  repeat (split; [reflexivity|]).
  split; vm_compute; intros H; apply H; reflexivity.
Qed.

Section AutocorrectScan.

Import Autocorrect.

Variable diff : diff_function.
Variable limit : Z.
Variable typed_word : string.

Let d (w : string) : Z := diff typed_word w limit.

Let step : ext * string -> string -> ext * string :=
  fun '(smallest_diff, autocorrect_word) word =>
    let current_diff := diff typed_word word limit in
    if lt_ext current_diff smallest_diff
    then (Fin current_diff, word)
    else (smallest_diff, autocorrect_word).

(** What the scan holds after the words of [seen]. *)
Let scanned (seen : list string) (st : ext * string) : Prop :=
  (seen = [] /\ st = (Inf, "")) \/
  (exists best, st = (Fin (d best), best) /\ first_minimum d seen best).

Lemma scan_step seen st word :
  scanned seen st -> scanned (seen ++ [word]) (step st word).
Proof.
  intros [[-> ->]|(best & -> & before & after & -> & Hb & Ha)]; right.
  - exists word. split; [reflexivity|].
    exists [], []. repeat split; intros w [].
  - cbn [step lt_ext]. fold (d word). destruct (Z.ltb_spec (d word) (d best)) as [Hlt|Hge].
    + exists word. split; [reflexivity|].
      exists (before ++ best :: after), []. split; [reflexivity|].
      split; [|intros w []].
      intros w Hw. apply in_app_or in Hw as [Hw|[<-|Hw]];
        [specialize (Hb w Hw)|exact Hlt|specialize (Ha w Hw)]; lia.
    + exists best. split; [reflexivity|].
      exists before, (after ++ [word]). split; [rewrite <- app_assoc; reflexivity|].
      split; [exact Hb|].
      intros w Hw. apply in_app_or in Hw as [Hw|[<-|[]]]; [apply Ha, Hw|exact Hge].
Qed.

Lemma scan_all rest : forall seen st,
  scanned seen st -> scanned (seen ++ rest) (fold_left step rest st).
Proof.
  induction rest as [|word rest IH]; intros seen st Hst.
  - rewrite app_nil_r. exact Hst.
  - cbn [fold_left].
    replace (seen ++ word :: rest) with ((seen ++ [word]) ++ rest)
      by (rewrite <- app_assoc; reflexivity).
    apply IH, scan_step, Hst.
Qed.

Lemma first_minimum_unique word_list b1 b2 :
  first_minimum d word_list b1 -> first_minimum d word_list b2 -> b1 = b2.
Proof.
  intros (p1 & a1 & -> & Hp1 & Ha1) (p2 & a2 & Heq & Hp2 & Ha2).
  apply app_eq_app in Heq as (l & [[-> Hl]|[-> Hl]]).
  - destruct l as [|x l]; cbn in Hl.
    + congruence.
    + injection Hl as -> ->.
      assert (d b1 < d x) by (apply Hp1, in_or_app; right; left; reflexivity).
      assert (d x <= d b1) by (apply Ha2, in_or_app; right; left; reflexivity).
      lia.
  - destruct l as [|x l]; cbn in Hl.
    + congruence.
    + injection Hl as -> ->.
      assert (d b2 < d x) by (apply Hp2, in_or_app; right; left; reflexivity).
      assert (d x <= d b2) by (apply Ha1, in_or_app; right; left; reflexivity).
      lia.
Qed.

Lemma compute_smallest_diff_first_minimum word_list best :
  first_minimum d word_list best ->
  compute_smallest_diff_and_return_word diff limit typed_word word_list
    = (best, Fin (d best)).
Proof.
  intros Hbest. unfold compute_smallest_diff_and_return_word.
  pose proof (scan_all word_list [] (Inf, "") (or_introl (conj eq_refl eq_refl)))
    as Hscan.
  cbn [app] in Hscan. unfold scanned, step in Hscan.
  destruct Hscan as [[-> _]|(best' & -> & Hbest')].
  - destruct Hbest as (before & after & Heq & _). destruct before; discriminate.
  - rewrite (first_minimum_unique _ _ _ Hbest Hbest'). reflexivity.
Qed.

Lemma first_minimum_exists word_list :
  word_list <> [] -> exists best, first_minimum d word_list best.
Proof.
  intros Hne.
  pose proof (scan_all word_list [] (Inf, "") (or_introl (conj eq_refl eq_refl)))
    as [[Hnil _]|(best & _ & Hbest)].
  - contradiction.
  - exists best. exact Hbest.
Qed.

End AutocorrectScan.

Lemma existsb_eqb_In typed_word word_list :
  existsb (String.eqb typed_word) word_list = true <-> In typed_word word_list.
Proof.
  rewrite existsb_exists. split.
  - intros (w & Hw & Heq). apply String.eqb_eq in Heq. subst w. exact Hw.
  - intros Hin. exists typed_word. split; [exact Hin|apply String.eqb_refl].
Qed.



(** C10: on an empty word list the scan leaves the running minimum at
    infinity and the candidate at the empty string; infinity is above every
    limit, so [autocorrect] returns [typed_word] and never the empty
    candidate. *)
Theorem autocorrect_empty_word_list typed_word diff limit :
  Autocorrect.compute_smallest_diff_and_return_word diff limit typed_word []
    = ("", Inf) /\
  (forall l : Z, gt_ext Inf l = true) /\
  Autocorrect.autocorrect typed_word [] diff limit = typed_word.
Proof. repeat split. Qed.

Section Scoring.

Import Scorer.

(** The counting loop of [compute_mistyped_words], from index [k] on. *)
Lemma mistyped_loop typed_words source_words n : forall k cnt,
  (k + n <= Nat.min (length typed_words) (length source_words))%nat ->
  for_each (seq k n)
    (fun i miss_typed_words_cnt =>
       t ← index typed_words i;
       s ← index source_words i;
       if negb (String.eqb t s)
       then Ok (Next (miss_typed_words_cnt + 1))
       else Ok (Next miss_typed_words_cnt))
    cnt
  = Ok (cnt + Z.of_nat
          (List.length
             (List.filter
                (fun i => negb (bool_decide (typed_words !! i = source_words !! i)))
                (seq k n)))).
Proof.
  induction n as [|n IH]; intros k cnt Hk.
  - cbn. f_equal. lia.
  - cbn [seq for_each List.filter]. unfold index at 1 2.
    destruct (lookup_lt_is_Some_2 typed_words k ltac:(lia)) as [t Ht].
    destruct (lookup_lt_is_Some_2 source_words k ltac:(lia)) as [s Hs].
    rewrite Ht, Hs. run.
    destruct (String.eqb_spec t s) as [->|Hne]; cbn [negb].
    + rewrite bool_decide_eq_true_2 by reflexivity. cbn [negb].
      apply IH. lia.
    + rewrite bool_decide_eq_false_2 by congruence. cbn [negb List.length].
      rewrite IH by lia. f_equal. lia.
Qed.

Lemma compute_mistyped_words_count typed_words source_words :
  compute_mistyped_words typed_words source_words
    = Ok (Z.of_nat (mistyped_positions typed_words source_words)).
Proof.
  unfold compute_mistyped_words, range, mistyped_positions.
  rewrite mistyped_loop by lia. reflexivity.
Qed.

Lemma compute_extra_typed_words_max typed_len source_len :
  compute_extra_typed_words typed_len source_len
    = Z.max 0 (typed_len - source_len).
Proof.
  unfold compute_extra_typed_words.
  destruct (Z.gtb_spec typed_len source_len); lia.
Qed.

End Scoring.

(** C5: [accuracy] splits both strings into words; it returns 100 when
    neither has a word, 0 when exactly one has none, and otherwise
    [(1 - (mismatches + extras) / len(typed_words)) * 100], where the
    mismatches are the positions below both lengths whose words differ as
    strings and the extras are [max(0, len(typed_words) -
    len(source_words))].  So ['Cute Dog!'] against ['Cute Dog.'] scores 50,
    and a typed text shorter than the source loses nothing:
    ['Cute'] against ['Cute Dog.'] scores 100. *)
Theorem accuracy_spec typed source :
  let typed_words := Scorer.split typed in
  let source_words := Scorer.split source in
  let mismatches := Z.of_nat (mistyped_positions typed_words source_words) in
  let extras :=
    Z.max 0 (Z.of_nat (length typed_words) - Z.of_nat (length source_words)) in
  Scorer.accuracy typed source
    = Ok (match typed_words, source_words with
          | [], [] => 100
          | [], _ :: _ | _ :: _, [] => 0
          | _ :: _, _ :: _ =>
              (1 - inject_Z (mismatches + extras)
                   / inject_Z (Z.of_nat (length typed_words))) * 100
          end)%Q
  /\ (exists q, Scorer.accuracy "Cute Dog!" "Cute Dog." = Ok q /\ (q == 50)%Q)
  /\ (exists q, Scorer.accuracy "Cute" "Cute Dog." = Ok q /\ (q == 100)%Q).
Proof.
  intros typed_words source_words mismatches extras. split.
  - unfold Scorer.accuracy. fold typed_words source_words.
    rewrite compute_mistyped_words_count, compute_extra_typed_words_max.
    fold mismatches extras.
    destruct typed_words as [|t tw], source_words as [|s sw]; try reflexivity.
  - split; eexists; (split; [vm_compute; reflexivity|reflexivity]).
Qed.

(** C7: [wpm] fails its assertion exactly when [elapsed <= 0]; for a
    positive [elapsed] it returns [(len(typed) / 5) * (60 / elapsed)], where
    [len(typed)] counts every character of the string, spaces too.  So
    [wpm('hello friend hello buddy hello', 15)] is 24. *)
Theorem wpm_spec typed elapsed :
  (Scorer.wpm typed elapsed = Raise AssertionError <-> (elapsed <= 0)%Q) /\
  ((0 < elapsed)%Q ->
   Scorer.wpm typed elapsed
     = Ok ((inject_Z (Z.of_nat (String.length typed)) / 5) * (60 / elapsed))%Q) /\
  (exists q, Scorer.wpm "hello friend hello buddy hello" 15 = Ok q /\ (q == 24)%Q).
Proof.
  unfold Scorer.wpm. split; [|split].
  - destruct (Qle_bool elapsed 0) eqn:Hle; cbn.
    + apply Qle_bool_iff in Hle. split; [intros _; exact Hle|reflexivity].
    + split; [discriminate|]. intros H. apply Qle_bool_iff in H. congruence.
  - intros Hpos. destruct (Qle_bool elapsed 0) eqn:Hle; cbn; [|reflexivity].
    apply Qle_bool_iff in Hle. exfalso. exact (Qlt_not_le _ _ Hpos Hle).
  - eexists. split; [vm_compute; reflexivity|reflexivity].
Qed.

Lemma wpm_spec_witness :
  Scorer.wpm "0123456789" 60
    = Ok ((inject_Z (Z.of_nat (String.length "0123456789")) / 5) * (60 / 60))%Q.
Proof.
  apply (proj1 (proj2 (wpm_spec "0123456789" 60))). reflexivity.
Defined.

Section ProgressRatio.

Import Progress.

(** [typed] runs past the end of [prompt] with every word of [prompt]
    matched. *)
Let overruns (typed prompt : list string) : Prop :=
  (length prompt < length typed)%nat /\ take (length prompt) typed = prompt.

Lemma overruns_cons t typed p prompt :
  overruns (t :: typed) (p :: prompt) <-> t = p /\ overruns typed prompt.
Proof.
  unfold overruns. cbn [length take]. split.
  - intros [Hlen Heq]. injection Heq as -> Heq. repeat split; [lia|exact Heq].
  - intros (-> & Hlen & Heq). split; [lia|]. rewrite Heq. reflexivity.
Qed.

(** The loop of [compute_correct_words_till_mistype], from index [k] on. *)
Lemma correct_words_loop prompt typed n : forall k cnt,
  (k + n)%nat = length typed ->
  (overruns (drop k typed) (drop k prompt) ->
   for_each (seq k n)
     (fun i typed_correctly_till_mistype =>
        t ← index typed i;
        p ← index prompt i;
        if String.eqb t p
        then Ok (Next (typed_correctly_till_mistype + 1))
        else Ok (Break typed_correctly_till_mistype))
     cnt = Raise IndexError) /\
  (~ overruns (drop k typed) (drop k prompt) ->
   for_each (seq k n)
     (fun i typed_correctly_till_mistype =>
        t ← index typed i;
        p ← index prompt i;
        if String.eqb t p
        then Ok (Next (typed_correctly_till_mistype + 1))
        else Ok (Break typed_correctly_till_mistype))
     cnt = Ok (cnt + Z.of_nat (leading_matches (drop k typed) (drop k prompt)))).
Proof.
  induction n as [|n IH]; intros k cnt Hk.
  - rewrite (drop_ge typed k) by lia. split.
    + intros [Hlen _]. cbn in Hlen. lia.
    + intros _. cbn. f_equal. lia.
  - cbn [seq for_each].
    destruct (lookup_lt_is_Some_2 typed k ltac:(lia)) as [t Ht].
    assert (Hit : index typed k = Ok t) by (unfold index; rewrite Ht; reflexivity).
    rewrite Hit, (drop_S typed t k Ht). run.
    assert (Hip : index prompt k
                  = match prompt !! k with Some p => Ok p | None => Raise IndexError end)
      by reflexivity.
    rewrite Hip. clear Hit Hip.
    destruct (prompt !! k) as [p|] eqn:Hp; run.
    + rewrite (drop_S prompt p k Hp). cbn [leading_matches].
      rewrite overruns_cons.
      destruct (String.eqb_spec t p) as [->|Hne]; cbv beta iota.
      * destruct (IH (S k) (cnt + 1) ltac:(lia)) as [IH1 IH2]. split.
        -- intros [_ Hover]. apply IH1, Hover.
        -- intros Hnot. rewrite IH2 by tauto. f_equal. lia.
      * split; [intros [Heq _]; contradiction|].
        intros _. f_equal. lia.
    + apply lookup_ge_None in Hp. rewrite (drop_ge prompt k Hp). split.
      * reflexivity.
      * intros Hnot. exfalso. apply Hnot. split; [cbn; lia|reflexivity].
Qed.

Lemma compute_correct_words_till_mistype_spec prompt typed :
  ((length prompt < length typed)%nat /\ take (length prompt) typed = prompt ->
   compute_correct_words_till_mistype prompt typed = Raise IndexError) /\
  (~ ((length prompt < length typed)%nat /\ take (length prompt) typed = prompt) ->
   compute_correct_words_till_mistype prompt typed
     = Ok (Z.of_nat (leading_matches typed prompt))).
Proof.
  exact (correct_words_loop prompt typed (length typed) 0%nat 0 eq_refl).
Qed.

End ProgressRatio.

(** C9: [report_progress] fails with an index error exactly when [typed]
    is longer than [prompt] and its first [len(prompt)] words all equal the
    words of [prompt]: the count of leading matches then walks past the end
    of [prompt].  When [typed] is no longer than a non-empty [prompt], the
    call uploads and returns the count of leading matches divided by
    [len(prompt)]. *)
Theorem report_progress_spec {W : Type} typed prompt user_id
  (upload : Progress.report -> W -> W) (server : W) :
  (Progress.report_progress typed prompt user_id upload server = Raise IndexError
   <-> (length prompt < length typed)%nat /\ take (length prompt) typed = prompt) /\
  ((length typed <= length prompt)%nat -> prompt <> [] ->
   let ratio := (inject_Z (Z.of_nat (leading_matches typed prompt))
                 / inject_Z (Z.of_nat (length prompt)))%Q in
   Progress.report_progress typed prompt user_id upload server
     = Ok (ratio, upload {| Progress.id := user_id; Progress.progress := ratio |} server)).
Proof.
  unfold Progress.report_progress, Progress.compute_progress_ratio,
    Progress.get_progress_ratio, truediv.
  destruct (compute_correct_words_till_mistype_spec prompt typed) as [Hover Hfine].
  split.
  - split; [|intros H; rewrite (Hover H); reflexivity].
    intros Hraise.
    destruct (decide ((length prompt < length typed)%nat
                      /\ take (length prompt) typed = prompt)) as [H|H]; [exact H|].
    rewrite (Hfine H) in Hraise. cbn [mbind result_bind] in Hraise.
    destruct (Z.of_nat (length prompt) =? 0); discriminate Hraise.
  - intros Hlen Hne. cbv zeta. rewrite Hfine by lia. run.
    destruct (Z.eqb_spec (Z.of_nat (length prompt)) 0) as [H0|_]; [|reflexivity].
    destruct prompt; [contradiction|cbn in H0; lia].
Qed.

Lemma report_progress_spec_witness :
  Progress.report_progress ["how"; "aree"] ["how"; "are"; "you"; "doing"; "today"]
    3 (fun r log => r :: log) []
  = Ok ((inject_Z (Z.of_nat (leading_matches ["how"; "aree"]
                               ["how"; "are"; "you"; "doing"; "today"]))
         / inject_Z (Z.of_nat (length ["how"; "are"; "you"; "doing"; "today"])))%Q,
        [{| Progress.id := 3;
            Progress.progress :=
              (inject_Z (Z.of_nat (leading_matches ["how"; "aree"]
                                     ["how"; "are"; "you"; "doing"; "today"]))
               / inject_Z (Z.of_nat (length ["how"; "are"; "you"; "doing"; "today"])))%Q |}]).
Proof.
  apply (proj2 (report_progress_spec ["how"; "aree"]
                  ["how"; "are"; "you"; "doing"; "today"] 3 (fun r log => r :: log) [])).
  - cbn. lia.
  - discriminate.
Defined.

Section FastestWords.

Import Progress.

Lemma fresh_lists_spec n : forall h,
  fresh_lists n h = (seq (length h) n, h ++ replicate n (StrList [])).
Proof.
  induction n as [|n IH]; intros h.
  - cbn. rewrite app_nil_r. reflexivity.
  - cbn [fresh_lists alloc]. rewrite IH, length_app. cbn [length seq replicate].
    rewrite Nat.add_1_r, <- app_assoc. reflexivity.
Qed.

Lemma match_at_app h x m ws tss :
  match_at h m ws tss -> match_at (h ++ x) m ws tss.
Proof.
  intros (Hw & rs & Ht & Hts). split; [apply lookup_app_l_Some, Hw|].
  exists rs. split; [apply lookup_app_l_Some, Ht|].
  eapply Forall2_impl; [exact Hts|].
  intros r ts Hr. apply lookup_app_l_Some, Hr.
Qed.

(** [match] accepts exactly the stores that hold a match whose time lists
    are as long as the list of words. *)
Lemma all_times_long_spec h n rs :
  all_times_long h n rs = true <->
  exists tss, Forall2 (fun r ts => h !! r = Some (NumList ts)) rs tss /\
              Forall (fun ts => length ts = n) tss.
Proof.
  induction rs as [|r rs IH]; cbn [all_times_long].
  - split; [intros _; exists []; split; constructor|reflexivity].
  - split.
    + destruct (h !! r) as [[| ts |]|] eqn:Hr; try discriminate.
      intros H. apply andb_true_iff in H as [Hlen Hrest].
      apply Nat.eqb_eq in Hlen. apply IH in Hrest as (tss & H2 & Hall).
      exists (ts :: tss). split; constructor; assumption.
    + intros (tss & H2 & Hall). destruct tss as [|ts tss]; [inversion H2|].
      apply Forall2_cons in H2 as [Hr H2]. apply Forall_cons in Hall as [Hlen Hall].
      rewrite Hr. apply andb_true_iff. split; [apply Nat.eqb_eq, Hlen|].
      apply IH. exists tss. split; assumption.
Qed.


Variables (m : Match) (ws : list string).

Section AnyTimes.

Variable tss : list (list number).
Hypothesis times_long : Forall (fun ts => length ts = length ws) tss.

Lemma time_ok h p j t :
  match_at h m ws tss -> time_of tss p j = Some t -> time m p j h = Ok t.
Proof.
  intros (Hw & rs & Ht & Hts) Htime. unfold time_of in Htime.
  destruct (tss !! p) as [ts|] eqn:Hp; [|discriminate]. cbn in Htime.
  destruct (Forall2_lookup_r _ _ _ _ _ Hts Hp) as (r & Hr & Hhr).
  pose proof (Forall_lookup_1 _ _ _ _ times_long Hp) as Hlen. cbv beta in Hlen.
  pose proof (lookup_lt_Some _ _ _ Htime) as Hj.
  pose proof (lookup_lt_Some _ _ _ Hr) as Hplt.
  unfold time, str_list, ref_list, num_list, index, assert.
  rewrite Hw. run.
  rewrite (proj2 (Nat.ltb_lt j (length ws))) by lia. run.
  rewrite Ht. run.
  rewrite (proj2 (Nat.ltb_lt p (length rs))) by lia. run.
  rewrite Hr. run. rewrite Hhr. run.
  rewrite Htime. reflexivity.
Qed.

Lemma get_word_ok h j w :
  match_at h m ws tss -> ws !! j = Some w -> get_word m j h = Ok w.
Proof.
  intros (Hw & _) Hj. pose proof (lookup_lt_Some _ _ _ Hj) as Hlt.
  unfold get_word, str_list, index, assert. rewrite Hw. run.
  rewrite (proj2 (Nat.ltb_lt j (length ws))) by lia. run.
  rewrite Hj. reflexivity.
Qed.

End AnyTimes.

Lemma time_of_is_Some {A : Type} (tss : list (list A))
  (times_long : Forall (fun ts => length ts = length ws) tss) p j :
  (p < length tss)%nat -> (j < length ws)%nat -> is_Some (time_of tss p j).
Proof.
  intros Hp Hj. unfold time_of.
  destruct (lookup_lt_is_Some_2 tss p Hp) as [ts Hts]. rewrite Hts. cbn.
  apply lookup_lt_is_Some_2.
  rewrite (Forall_lookup_1 _ _ _ _ times_long Hts). exact Hj.
Qed.

Lemma time_of_lt {A : Type} (tss : list (list A)) p j t :
  time_of tss p j = Some t -> (p < length tss)%nat.
Proof.
  unfold time_of. destruct (tss !! p) eqn:Hp; [|discriminate].
  intros _. eapply lookup_lt_Some, Hp.
Qed.

(** From here on every time is an integer: [zss] holds the times, and the
    store holds them as numbers. *)
Variable zss : list (list Z).
Hypothesis times_long : Forall (fun zs => length zs = length ws) zss.

Lemma length_as_numbers : length (as_numbers zss) = length zss.
Proof. unfold as_numbers. apply length_fmap. Qed.

Lemma time_of_as_numbers p j :
  time_of (as_numbers zss) p j = Int <$> time_of zss p j.
Proof.
  unfold time_of, as_numbers. rewrite list_lookup_fmap.
  destruct (zss !! p) as [zs|]; [|reflexivity]. cbn.
  apply list_lookup_fmap.
Qed.

Lemma as_numbers_long :
  Forall (fun ts => length ts = length ws) (as_numbers zss).
Proof.
  unfold as_numbers. apply Forall_fmap.
  eapply Forall_impl; [exact times_long|].
  intros zs Hzs. cbn. rewrite length_fmap. exact Hzs.
Qed.

Lemma time_int_ok h p j t :
  match_at h m ws (as_numbers zss) -> time_of zss p j = Some t ->
  time m p j h = Ok (Int t).
Proof.
  intros Hm Ht. apply (time_ok (as_numbers zss) as_numbers_long h p j (Int t) Hm).
  rewrite time_of_as_numbers, Ht. reflexivity.
Qed.

Lemma is_fastest_unique j p p' :
  is_fastest zss j p -> is_fastest zss j p' -> p = p'.
Proof.
  intros (t & Ht & Hmin) (t' & Ht' & Hmin').
  destruct (Hmin p' t' Ht') as [? ?]. destruct (Hmin' p t Ht) as [? ?].
  destruct (Nat.lt_trichotomy p p') as [Hlt|[Heq|Hgt]]; [|exact Heq|]; lia.
Qed.

(** What the scan over the players holds for word [j] after the players
    below [k]. *)
Let chosen (j k : nat) (st : number * nat * string) : Prop :=
  match k with
  | O => st = (PosInf, 0%nat, "")
  | S _ =>
      exists t p w, st = (Int t, p, w) /\ (p < k)%nat /\
        time_of zss p j = Some t /\ ws !! j = Some w /\
        forall q t', (q < k)%nat -> time_of zss q j = Some t' ->
          t <= t' /\ ((q < p)%nat -> t < t')
  end.

Lemma chosen_step h j k st w :
  match_at h m ws (as_numbers zss) -> ws !! j = Some w -> (k < length zss)%nat ->
  chosen j k st ->
  exists st',
    (let '(min_time_per_word_for_player, player, word) := st in
     current_word_time ← time m k j h;
     if number_lt current_word_time min_time_per_word_for_player
     then word' ← get_word m j h;
          Ok (Next (current_word_time, k, word'))
     else Ok (Next (min_time_per_word_for_player, player, word)))
    = Ok (Next st') /\ chosen j (S k) st'.
Proof.
  intros Hm Hw Hk Hst.
  destruct (time_of_is_Some zss times_long k j Hk (lookup_lt_Some _ _ _ Hw))
    as [tk Htk].
  destruct k as [|k']; cbn [chosen] in Hst.
  - subst st. rewrite (time_int_ok h 0 j tk Hm Htk).
    cbn [mbind result_bind number_lt].
    rewrite (get_word_ok (as_numbers zss) h j w Hm Hw). run.
    eexists. split; [reflexivity|]. exists tk, 0%nat, w.
    repeat split; auto; try lia.
    all: intros; assert (q = 0%nat) as -> by lia; try lia.
    assert (t' = tk) by congruence. lia.
  - destruct Hst as (t & p & w0 & -> & Hp & Ht & Hw0 & Hmin).
    rewrite (time_int_ok h (S k') j tk Hm Htk).
    cbn [mbind result_bind number_lt].
    destruct (Z.ltb_spec tk t) as [Hlt|Hge].
    + rewrite (get_word_ok (as_numbers zss) h j w Hm Hw). run.
      eexists. split; [reflexivity|]. exists tk, (S k'), w.
      repeat split; auto; try lia.
      * destruct (Nat.eq_dec q (S k')) as [->|Hq]; [assert (t' = tk) by congruence; lia|].
        destruct (Hmin q t' ltac:(lia) H0). lia.
      * intros Hq. destruct (Hmin q t' ltac:(lia) H0). lia.
    + eexists. split; [reflexivity|]. exists t, p, w0.
      repeat split; auto; try lia.
      * destruct (Nat.eq_dec q (S k')) as [->|Hq]; [assert (t' = tk) by congruence; lia|].
        destruct (Hmin q t' ltac:(lia) H0). lia.
      * intros Hq. destruct (Hmin q t' ltac:(lia) H0). lia.
Qed.

Lemma chosen_loop h j w :
  match_at h m ws (as_numbers zss) -> ws !! j = Some w ->
  forall n k st, (k + n)%nat = length zss -> chosen j k st ->
  exists st',
    for_each (seq k n)
      (fun player_index '(min_time_per_word_for_player, player, word) =>
         current_word_time ← time m player_index j h;
         if number_lt current_word_time min_time_per_word_for_player
         then word' ← get_word m j h;
              Ok (Next (current_word_time, player_index, word'))
         else Ok (Next (min_time_per_word_for_player, player, word)))
      st = Ok st' /\ chosen j (length zss) st'.
Proof.
  intros Hm Hw. induction n as [|n IH]; intros k st Hk Hst.
  - exists st. split; [reflexivity|]. replace (length zss) with k by lia. exact Hst.
  - cbn [seq for_each].
    destruct (chosen_step h j k st w Hm Hw ltac:(lia) Hst) as (st1 & Hbody & Hst1).
    destruct st as [[mt pl] wd]. rewrite Hbody. apply IH; [lia|exact Hst1].
Qed.

Lemma chosen_is_fastest j st :
  zss <> [] -> chosen j (length zss) st ->
  exists t p w, st = (Int t, p, w) /\ is_fastest zss j p /\ ws !! j = Some w.
Proof.
  intros Hne Hst. unfold chosen in Hst.
  destruct (length zss) as [|n] eqn:Hn;
    [apply length_zero_iff_nil in Hn; contradiction|].
  destruct Hst as (t & p & w & -> & Hp & Ht & Hw & Hmin).
  exists t, p, w. split; [reflexivity|]. split; [|exact Hw].
  exists t. split; [exact Ht|]. intros q t' Hq. apply Hmin; [|exact Hq].
  pose proof (time_of_lt zss q j t' Hq) as Hlt. lia.
Qed.

Lemma with_fastest_old h lists l o :
  h !! l = Some o -> with_fastest h lists !! l = Some o.
Proof. apply lookup_app_l_Some. Qed.

Lemma match_at_with_fastest h lists tss :
  match_at h m ws tss -> match_at (with_fastest h lists) m ws tss.
Proof. apply match_at_app. Qed.

Lemma with_fastest_lists h lists :
  ref_list (with_fastest h lists) (length h + length lists)%nat
    = Ok (seq (length h) (length lists)).
Proof.
  unfold ref_list, with_fastest.
  rewrite lookup_app_r by lia.
  rewrite lookup_app_r by (rewrite length_fmap; lia).
  rewrite length_fmap.
  replace (length h + length lists - length h - length lists)%nat with 0%nat by lia.
  reflexivity.
Qed.

Lemma with_fastest_append h lists p lp w :
  lists !! p = Some lp ->
  append (length h + p)%nat w (with_fastest h lists)
    = Ok (with_fastest h (<[p := lp ++ [w]]> lists)).
Proof.
  intros Hp. pose proof (lookup_lt_Some _ _ _ Hp) as Hlt.
  unfold append, with_fastest.
  rewrite lookup_app_r by lia.
  replace (length h + p - length h)%nat with p by lia.
  rewrite lookup_app_l by (rewrite length_fmap; exact Hlt).
  rewrite list_lookup_fmap, Hp. cbn [fmap option_fmap option_map].
  rewrite insert_app_r_alt by lia.
  replace (length h + p - length h)%nat with p by lia.
  rewrite insert_app_l by (rewrite length_fmap; exact Hlt).
  rewrite list_fmap_insert, length_insert. reflexivity.
Qed.

(** One turn of the loop over the words: the word goes to the list of the
    fastest player. *)
Lemma compute_fastest_words_step h lists j :
  match_at h m ws (as_numbers zss) -> zss <> [] -> length lists = length zss ->
  (j < length ws)%nat ->
  exists p lp w,
    is_fastest zss j p /\ lists !! p = Some lp /\ ws !! j = Some w /\
    compute_fastest_words_for_each_player (length h + length zss)%nat m
      (length zss) j (with_fastest h lists)
    = Ok (with_fastest h (<[p := lp ++ [w]]> lists)).
Proof.
  intros Hm Hne Hlen Hj.
  destruct (lookup_lt_is_Some_2 ws j Hj) as [w Hw].
  destruct (chosen_loop (with_fastest h lists) j w
              (match_at_with_fastest h lists _ Hm) Hw (length zss) 0%nat
              (PosInf, 0%nat, "") eq_refl eq_refl) as (st & Hloop & Hst).
  destruct (chosen_is_fastest j st Hne Hst) as (t & p & w' & -> & Hfast & Hw').
  assert (w' = w) as -> by congruence.
  assert (Hp : (p < length lists)%nat).
  { destruct Hfast as (t0 & Ht0 & _). rewrite Hlen. eapply time_of_lt, Ht0. }
  destruct (lookup_lt_is_Some_2 lists p Hp) as [lp Hlp].
  exists p, lp, w. repeat split; try assumption.
  unfold compute_fastest_words_for_each_player, range.
  rewrite Hloop. run.
  rewrite <- Hlen, with_fastest_lists. run.
  unfold index. rewrite lookup_seq_lt by exact Hp. run.
  apply with_fastest_append, Hlp.
Qed.

(** The words won by a player among the first [j] words. *)
Let won (winner : nat -> nat) (j p : nat) : list string :=
  omap (fun i => if (winner i =? p)%nat then ws !! i else None) (seq 0 j).

Lemma won_S winner j p w :
  ws !! j = Some w ->
  won winner (S j) p
    = won winner j p ++ (if (winner j =? p)%nat then [w] else []).
Proof.
  intros Hw. unfold won. rewrite seq_S, omap_app. cbn [Nat.add omap list_omap].
  destruct (winner j =? p)%nat; [rewrite Hw|]; reflexivity.
Qed.

Lemma won_insert winner j w n :
  ws !! j = Some w -> (winner j < n)%nat ->
  <[winner j := won winner j (winner j) ++ [w]]> (won winner j <$> seq 0 n)
    = won winner (S j) <$> seq 0 n.
Proof.
  intros Hw Hlt. apply list_eq. intros i.
  destruct (Nat.eq_dec i (winner j)) as [->|Hne].
  - rewrite list_lookup_insert_eq by (rewrite length_fmap, length_seq; exact Hlt).
    rewrite list_lookup_fmap, lookup_seq_lt by exact Hlt.
    cbn [fmap option_fmap option_map Nat.add].
    rewrite (won_S winner j (winner j) w Hw), Nat.eqb_refl. reflexivity.
  - rewrite list_lookup_insert_ne by congruence.
    rewrite !list_lookup_fmap.
    destruct (seq 0 n !! i) as [i'|] eqn:Hi; [|reflexivity].
    apply lookup_seq in Hi as [-> _]. cbn [fmap option_fmap option_map Nat.add].
    rewrite (won_S winner j i w Hw).
    rewrite (proj2 (Nat.eqb_neq (winner j) i)) by congruence.
    rewrite app_nil_r. reflexivity.
Qed.

Lemma fastest_words_loop h winner :
  match_at h m ws (as_numbers zss) -> (zss <> [] \/ ws = []) ->
  (forall j, (j < length ws)%nat -> is_fastest zss j (winner j)) ->
  forall n j, (j + n)%nat = length ws ->
  for_each (seq j n)
    (fun word_index h' =>
       h'' ← compute_fastest_words_for_each_player
               (length h + length zss)%nat m (length zss) word_index h';
       Ok (Next h''))
    (with_fastest h (won winner j <$> seq 0 (length zss)))
  = Ok (with_fastest h (won winner (length ws) <$> seq 0 (length zss))).
Proof.
  intros Hm Hplayers Hwin. induction n as [|n IH]; intros j Hj.
  - replace (length ws) with j by lia. reflexivity.
  - cbn [seq for_each].
    assert (Hne : zss <> []).
    { destruct Hplayers as [H|H]; [exact H|]. rewrite H in Hj. cbn in Hj. lia. }
    destruct (compute_fastest_words_step h (won winner j <$> seq 0 (length zss)) j
                Hm Hne ltac:(rewrite length_fmap, length_seq; reflexivity)
                ltac:(lia)) as (p & lp & w & Hfast & Hlp & Hw & Hstep).
    rewrite Hstep. run.
    assert (p = winner j) as -> by (eapply is_fastest_unique; [exact Hfast|apply Hwin; lia]).
    pose proof (lookup_lt_Some _ _ _ Hlp) as Hlt.
    rewrite length_fmap, length_seq in Hlt.
    rewrite list_lookup_fmap, lookup_seq_lt in Hlp by exact Hlt.
    cbn [fmap option_fmap option_map Nat.add] in Hlp. injection Hlp as <-.
    rewrite (won_insert winner j w (length zss) Hw Hlt).
    apply IH. lia.
Qed.

(** The player that the scan over the players finds for word [j]. *)
Let winner_in (h : heap) (j : nat) : nat :=
  match
    for_each (seq 0 (length zss))
      (fun player_index '(min_time_per_word_for_player, player, word) =>
         current_word_time ← time m player_index j h;
         if number_lt current_word_time min_time_per_word_for_player
         then word' ← get_word m j h;
              Ok (Next (current_word_time, player_index, word'))
         else Ok (Next (min_time_per_word_for_player, player, word)))
      (PosInf, 0%nat, "")
  with
  | Ok (_, player, _) => player
  | Raise _ => 0%nat
  end.

Lemma winner_in_is_fastest h j :
  match_at h m ws (as_numbers zss) -> zss <> [] -> (j < length ws)%nat ->
  is_fastest zss j (winner_in h j).
Proof.
  intros Hm Hne Hj. destruct (lookup_lt_is_Some_2 ws j Hj) as [w Hw].
  destruct (chosen_loop h j w Hm Hw (length zss) 0%nat (PosInf, 0%nat, "")
              eq_refl eq_refl) as (st & Hloop & Hst).
  destruct (chosen_is_fastest j st Hne Hst) as (t & p & w' & -> & Hfast & _).
  unfold winner_in. rewrite Hloop. exact Hfast.
Qed.

Lemma fmap_seq_const {A : Type} (f : nat -> A) (c : A) n : forall a,
  (forall i, f i = c) -> f <$> seq a n = replicate n c.
Proof.
  induction n as [|n IH]; intros a Hf; [reflexivity|].
  cbn [seq fmap list_fmap replicate]. rewrite Hf. f_equal. apply IH, Hf.
Qed.

Lemma fastest_words_on h :
  match_at h m ws (as_numbers zss) -> (zss <> [] \/ ws = []) ->
  exists winner,
    (forall j, (j < length ws)%nat -> is_fastest zss j (winner j)) /\
    fastest_words m h
      = Ok ((length h + length zss)%nat,
            with_fastest h (words_won ws winner <$> seq 0 (length zss))).
Proof.
  intros Hm Hplayers.
  assert (Hwin : forall j, (j < length ws)%nat -> is_fastest zss j (winner_in h j)).
  { intros j Hj. apply winner_in_is_fastest; [exact Hm| |exact Hj].
    destruct Hplayers as [H|H]; [exact H|]. rewrite H in Hj. cbn in Hj. lia. }
  exists (winner_in h). split; [exact Hwin|].
  pose proof Hm as (Hw & rs & Ht & Hts).
  pose proof (Forall2_length _ _ _ Hts) as Hlen.
  rewrite length_as_numbers in Hlen.
  unfold fastest_words, get_all_times, get_all_words, ref_list, str_list.
  rewrite Ht, Hw. run.
  rewrite fresh_lists_spec. cbn [alloc].
  rewrite length_app, length_replicate, Hlen.
  pose proof (fastest_words_loop h (winner_in h) Hm Hplayers Hwin
                (length ws) 0%nat eq_refl) as Hloop.
  unfold with_fastest at 1 in Hloop.
  rewrite length_fmap, length_seq in Hloop.
  rewrite <- list_fmap_compose in Hloop.
  rewrite (fmap_seq_const _ (StrList []) (length zss) 0%nat) in Hloop
    by reflexivity.
  rewrite app_assoc in Hloop. unfold range. rewrite Hloop.
  reflexivity.
Qed.

End FastestWords.

(** The time lists of a store are lists of integers when they are long
    enough as lists of numbers. *)
Lemma as_numbers_long_inv n zss :
  Forall (fun ts : list Progress.number => length ts = n) (as_numbers zss) ->
  Forall (fun zs : list Z => length zs = n) zss.
Proof.
  unfold as_numbers. intros H. apply Forall_fmap in H.
  eapply Forall_impl; [exact H|].
  intros zs Hzs. cbn in Hzs. rewrite length_fmap in Hzs. exact Hzs.
Qed.




(** * Further properties of the difference functions *)

Section DiffMore.

Lemma edit_distance_lev s g d : edit_distance s g d -> d = lev s g.
Proof.
  intros [Hd Hmin]. pose proof (lev_lower d s g Hd).
  pose proof (Hmin (lev s g) (lev_upper s g)). lia.
Qed.

Lemma lev_zero s g : lev s g = 0%nat -> s = g.
Proof.
  intros H0. pose proof (lev_upper s g) as He. rewrite H0 in He.
  inversion He. reflexivity.
Qed.

Lemma ham_zero t s : ham t s = 0%nat -> t = s.
Proof.
  revert s. induction t as [|a t IH]; intros [|b s]; cbn [ham String.length];
    try reflexivity; try lia.
  destruct (Ascii.eqb_spec a b) as [->|_]; [|discriminate].
  intros H0. f_equal. apply IH, H0.
Qed.

Lemma ham_refl s : ham s s = 0%nat.
Proof.
  induction s as [|a s IH]; [reflexivity|].
  rewrite ham_cons, Ascii.eqb_refl. exact IH.
Qed.

Lemma lev_sym s g : lev s g = lev g s.
Proof.
  revert g. induction s as [|a s IHs]; intros g.
  - rewrite lev_nil_l, lev_nil_r. lia.
  - induction g as [|b g IHg].
    + rewrite lev_nil_l, lev_nil_r. lia.
    + rewrite !lev_cons, (Ascii.eqb_sym a b), IHg, (IHs (String b g)), (IHs g).
      destruct (Ascii.eqb b a); lia.
Qed.

Lemma lev_triangle a b c : (lev a c <= lev a b + lev b c)%nat.
Proof.
  apply lev_lower. eapply edits_app; apply lev_upper.
Qed.

End DiffMore.

(** X1: [feline_fixes] does not depend on the order of its two words, at
    any limit. *)
Theorem feline_fixes_sym typed source limit :
  feline_fixes typed source limit = feline_fixes source typed limit.
Proof.
  revert source limit. induction typed as [|a t IH]; intros source limit.
  - rewrite (feline_fixes_eq "" source), (feline_fixes_eq source "").
    destruct (limit <? 0), source; reflexivity || lia.
  - destruct source as [|b s].
    + rewrite (feline_fixes_eq _ ""), (feline_fixes_eq "" _).
      destruct (limit <? 0); reflexivity || lia.
    + rewrite (feline_fixes_eq (String a t) (String b s)),
        (feline_fixes_eq (String b s) (String a t)).
      destruct (limit <? 0); [reflexivity|].
      rewrite (Ascii.eqb_sym b a). destruct (Ascii.eqb a b); rewrite IH; reflexivity.
Qed.

(** X2: [minimum_mewtations] does not depend on the order of its two words,
    at any limit: adding to one word is removing from the other. *)
Theorem minimum_mewtations_sym start goal limit :
  minimum_mewtations start goal limit = minimum_mewtations goal start limit.
Proof.
  revert goal limit. induction start as [|a s IHs]; intros goal.
  - intros limit. rewrite (minimum_mewtations_eq "" goal), (minimum_mewtations_eq goal "").
    destruct (limit <? 0), goal; reflexivity || lia.
  - induction goal as [|b g IHg]; intros limit.
    + rewrite (minimum_mewtations_eq _ ""), (minimum_mewtations_eq "" _).
      destruct (limit <? 0); reflexivity || lia.
    + rewrite (minimum_mewtations_eq (String a s) (String b g)),
        (minimum_mewtations_eq (String b g) (String a s)).
      destruct (limit <? 0); [reflexivity|].
      rewrite (Ascii.eqb_sym a b). destruct (Ascii.eqb b a); [apply IHs|].
      rewrite (IHg (limit - 1)), (IHs (String b g) (limit - 1)), (IHs g (limit - 1)).
      lia.
Qed.

(** X3: with a limit [>= 0], [minimum_mewtations] stays within the limit
    exactly when the edit distance does: the pruning never turns a word that
    is too far into one that is near enough, nor the reverse. *)
Theorem minimum_mewtations_threshold start goal limit :
  0 <= limit ->
  (minimum_mewtations start goal limit <= limit <->
   exists d, edit_distance start goal d /\ Z.of_nat d <= limit).
Proof.
  intros Hlimit. pose proof (minimum_mewtations_lev start goal limit) as Hb. split.
  - intros Hle. exists (lev start goal). split; [apply lev_edit_distance|lia].
  - intros (d & Hd & Hle). apply edit_distance_lev in Hd. subst d. lia.
Qed.

Lemma minimum_mewtations_threshold_witness :
  minimum_mewtations "ckiteus" "kittens" 2 <= 2 <->
  exists d, edit_distance "ckiteus" "kittens" d /\ Z.of_nat d <= 2.
Proof. apply (minimum_mewtations_threshold "ckiteus" "kittens" 2). lia. Defined.

(** X4: with a limit [>= 0], [feline_fixes] stays within the limit exactly
    when the number of differing positions plus the difference of the
    lengths does. *)
Theorem feline_fixes_threshold typed source limit :
  0 <= limit ->
  (feline_fixes typed source limit <= limit <->
   Z.of_nat (differing_positions typed source + length_gap typed source) <= limit).
Proof.
  intros Hlimit. rewrite <- ham_positions.
  pose proof (feline_fixes_ham typed source limit). lia.
Qed.

Lemma feline_fixes_threshold_witness :
  feline_fixes "roses" "arose" 3 <= 3 <->
  Z.of_nat (differing_positions "roses" "arose" + length_gap "roses" "arose") <= 3.
Proof. apply (feline_fixes_threshold "roses" "arose" 3). lia. Defined.

(** X5: with a limit [>= 0], either difference function returns 0 exactly
    on two equal words. *)
Theorem difference_zero_iff_equal typed source limit :
  0 <= limit ->
  (feline_fixes typed source limit = 0 <-> typed = source) /\
  (minimum_mewtations typed source limit = 0 <-> typed = source).
Proof.
  intros Hlimit.
  pose proof (feline_fixes_ham typed source limit) as Hf.
  pose proof (minimum_mewtations_lev typed source limit) as Hm.
  split; split.
  - intros H0. apply ham_zero. lia.
  - intros ->. rewrite ham_refl in Hf. lia.
  - intros H0. apply lev_zero. lia.
  - intros ->. rewrite lev_refl in Hm. lia.
Qed.

Lemma difference_zero_iff_equal_witness :
  (feline_fixes "nice" "rice" 0 = 0 <-> "nice" = "rice") /\
  (minimum_mewtations "nice" "rice" 0 = 0 <-> "nice" = "rice").
Proof. apply (difference_zero_iff_equal "nice" "rice" 0). lia. Defined.

(** X6: [final_diff] ignores its limit argument and returns the edit
    distance of its two words: its own limit, the larger of the two lengths
    and [FINAL_DIFF_LIMIT], is never exceeded. *)
Theorem final_diff_edit_distance typed source limit :
  exists d, final_diff typed source limit = Z.of_nat d /\
            edit_distance typed source d.
Proof.
  exists (lev typed source). split; [apply final_diff_lev|apply lev_edit_distance].
Qed.

(** X7: [final_diff] is a metric on words: it is 0 exactly on equal words,
    symmetric, and obeys the triangle inequality, whatever limits are
    passed. *)
Theorem final_diff_metric a b c l1 l2 l3 :
  (final_diff a b l1 = 0 <-> a = b) /\
  final_diff a b l1 = final_diff b a l2 /\
  final_diff a c l1 <= final_diff a b l2 + final_diff b c l3.
Proof.
  rewrite !final_diff_lev. split; [|split].
  - split; [intros H0; apply lev_zero; lia|intros ->; rewrite lev_refl; reflexivity].
  - rewrite (lev_sym a b). reflexivity.
  - pose proof (lev_triangle a b c). lia.
Qed.

(** * Paragraph selection *)

Section Selection.

Import Paragraphs.

Lemma pick_nth select paragraphs : forall k,
  0 <= k ->
  pick paragraphs select k
    = nth (Z.to_nat k) (List.filter select paragraphs) "".
Proof.
  induction paragraphs as [|p ps IH]; intros k Hk; cbn [pick List.filter].
  - destruct (Z.to_nat k); reflexivity.
  - destruct (select p); [|apply IH, Hk].
    destruct (Z.eqb_spec k 0) as [->|Hne]; [reflexivity|].
    rewrite IH by lia.
    replace (Z.to_nat k) with (S (Z.to_nat (k - 1))) by lia. reflexivity.
Qed.

Lemma pick_negative select paragraphs : forall k,
  k < 0 -> pick paragraphs select k = "".
Proof.
  induction paragraphs as [|p ps IH]; intros k Hk; cbn [pick]; [reflexivity|].
  destruct (select p); [|apply IH, Hk].
  destruct (Z.eqb_spec k 0); [lia|]. apply IH. lia.
Qed.

End Selection.

(** X8: for [k >= 0], [pick] returns the paragraph at index [k] among the
    paragraphs that [select] accepts, in their order, and the empty string
    when there are [k] or fewer of them; for [k < 0] it returns the empty
    string. *)
Theorem pick_spec paragraphs select k :
  (0 <= k ->
   Paragraphs.pick paragraphs select k
     = nth (Z.to_nat k) (List.filter select paragraphs) "") /\
  (Z.of_nat (length (List.filter select paragraphs)) <= k ->
   Paragraphs.pick paragraphs select k = "") /\
  (k < 0 -> Paragraphs.pick paragraphs select k = "").
Proof.
  split; [apply pick_nth|]. split; [|apply pick_negative].
  intros Hk. rewrite pick_nth by lia. apply nth_overflow. lia.
Qed.

Lemma pick_spec_witness :
  Paragraphs.pick ["hi"; "how are you"; "fine"]
    (fun p => (String.length p <=? 4)%nat) 1
  = nth (Z.to_nat 1)
      (List.filter (fun p => (String.length p <=? 4)%nat)
         ["hi"; "how are you"; "fine"]) "".
Proof.
  apply (proj1 (pick_spec ["hi"; "how are you"; "fine"]
                  (fun p => (String.length p <=? 4)%nat) 1)).
  lia.
Defined.

(** X9: [pick] never returns a paragraph that [select] rejects: a result
    other than the empty string is one of the paragraphs, and [select]
    accepts it. *)
Theorem pick_selected paragraphs select k :
  Paragraphs.pick paragraphs select k <> "" ->
  In (Paragraphs.pick paragraphs select k) paragraphs /\
  select (Paragraphs.pick paragraphs select k) = true.
Proof.
  intros Hne. destruct (Z.lt_ge_cases k 0) as [Hk|Hk];
    [rewrite pick_negative in Hne by exact Hk; contradiction|].
  rewrite pick_nth in * by exact Hk.
  destruct (Nat.lt_ge_cases (Z.to_nat k) (length (List.filter select paragraphs)))
    as [Hlt|Hge]; [|rewrite nth_overflow in Hne by exact Hge; contradiction].
  apply filter_In. apply nth_In, Hlt.
Qed.

Lemma pick_selected_witness :
  In (Paragraphs.pick ["hi"; "how are you"; "fine"]
        (fun p => (String.length p <=? 4)%nat) 1)
     ["hi"; "how are you"; "fine"] /\
  (fun p => (String.length p <=? 4)%nat)
    (Paragraphs.pick ["hi"; "how are you"; "fine"]
       (fun p => (String.length p <=? 4)%nat) 1) = true.
Proof.
  apply (pick_selected ["hi"; "how are you"; "fine"]
           (fun p => (String.length p <=? 4)%nat) 1).
  vm_compute. discriminate.
Defined.

(** X10: [about(topic)] fails its assertion exactly when some word of
    [topic] is changed by [lower].  Otherwise the selector it returns accepts
    a paragraph exactly when a word of [topic] is among the words of the
    lowered paragraph without its punctuation. *)
Theorem about_spec lower remove_punctuation topic :
  (Paragraphs.about lower remove_punctuation topic = Raise AssertionError
   <-> exists x, In x topic /\ lower x <> x) /\
  (forall select,
     Paragraphs.about lower remove_punctuation topic = Ok select ->
     forall paragraph,
       select paragraph = true <->
       exists word, In word topic /\
         In word (Paragraphs.apply_changes_on lower remove_punctuation paragraph)).
Proof.
  unfold Paragraphs.about.
  destruct (forallb (fun x => String.eqb (lower x) x) topic) eqn:Hall; cbn.
  - rewrite forallb_forall in Hall. split.
    + split; [discriminate|]. intros (x & Hx & Hne).
      apply Hall, String.eqb_eq in Hx. contradiction.
    + intros select [= <-] paragraph. rewrite existsb_exists. split.
      * intros (word & Hw & Hin). exists word. split; [exact Hw|].
        apply existsb_exists in Hin as (w' & Hw' & Heq).
        apply String.eqb_eq in Heq. pose proof (Hall word Hw) as Hl.
        apply String.eqb_eq in Hl. congruence.
      * intros (word & Hw & Hin). exists word. split; [exact Hw|].
        apply existsb_exists. exists word. split; [exact Hin|].
        pose proof (Hall word Hw) as Hl. apply String.eqb_eq in Hl.
        rewrite Hl. apply String.eqb_refl.
  - split; [|intros select [=]]. split; [|reflexivity]. intros _.
    assert (Hex : existsb (fun x => negb (String.eqb (lower x) x)) topic = true).
    { clear -Hall. induction topic as [|x topic IH]; [discriminate|].
      cbn in *. destruct (String.eqb (lower x) x); cbn in *; auto. }
    apply existsb_exists in Hex as (x & Hx & Hne). exists x. split; [exact Hx|].
    intros Heq. rewrite Heq, String.eqb_refl in Hne. discriminate.
Qed.

Lemma about_spec_witness :
  existsb (fun word => existsb (String.eqb word)
                         (Paragraphs.apply_changes_on id id "nice pup"))
    ["dog"; "pup"] = true <->
  exists word, In word ["dog"; "pup"] /\
    In word (Paragraphs.apply_changes_on id id "nice pup").
Proof.
  apply (proj2 (about_spec id id ["dog"; "pup"])
           (fun paragraph =>
              existsb (fun word => existsb (String.eqb word)
                                     (Paragraphs.apply_changes_on id id paragraph))
                ["dog"; "pup"])
           eq_refl "nice pup").
Defined.

(** * Further properties of the scorer *)

Section ScoringMore.

Import Scorer.

Lemma mistyped_cons t tw s sw :
  mistyped_positions (t :: tw) (s :: sw)
    = ((if String.eqb t s then 0 else 1) + mistyped_positions tw sw)%nat.
Proof.
  unfold mistyped_positions. cbn [length Nat.min seq List.filter].
  change ((t :: tw) !! 0%nat) with (Some t).
  change ((s :: sw) !! 0%nat) with (Some s).
  destruct (String.eqb_spec t s) as [->|Hne].
  - rewrite bool_decide_eq_true_2 by reflexivity. cbn [negb].
    rewrite filter_seq_shift. reflexivity.
  - rewrite bool_decide_eq_false_2 by congruence. cbn [negb List.length].
    rewrite filter_seq_shift. reflexivity.
Qed.

Lemma mistyped_nil_l sw : mistyped_positions [] sw = 0%nat.
Proof. reflexivity. Qed.

Lemma mistyped_nil_r tw : mistyped_positions tw [] = 0%nat.
Proof. unfold mistyped_positions. rewrite Nat.min_0_r. reflexivity. Qed.

Lemma mistyped_le tw : forall sw,
  (mistyped_positions tw sw <= Nat.min (length tw) (length sw))%nat.
Proof.
  induction tw as [|t tw IH]; intros [|s sw];
    rewrite ?mistyped_nil_l, ?mistyped_nil_r; cbn [length Nat.min]; try lia.
  rewrite mistyped_cons. specialize (IH sw). destruct (String.eqb t s); lia.
Qed.

(** No mismatch and no extra word: the typed words open the source. *)
Lemma mistyped_zero_prefix tw : forall sw,
  mistyped_positions tw sw = 0%nat /\ (length tw <= length sw)%nat
  <-> tw `prefix_of` sw.
Proof.
  induction tw as [|t tw IH]; intros sw.
  - split; [intros _; apply prefix_nil|]. intros _. split; [reflexivity|cbn; lia].
  - destruct sw as [|s sw].
    + split; [cbn; lia|]. intros H. apply prefix_nil_not in H. contradiction.
    + rewrite mistyped_cons. cbn [length]. split.
      * intros [Hm Hl]. destruct (String.eqb_spec t s) as [->|_]; [|lia].
        apply prefix_cons, IH. split; lia.
      * intros H. pose proof (prefix_cons_inv_1 _ _ _ _ H) as ->.
        apply prefix_cons_inv_2, IH in H as [Hm Hl].
        rewrite String.eqb_refl. split; lia.
Qed.

Lemma truediv_zero a b :
  0 < b -> (inject_Z a / inject_Z b == 0)%Q <-> a = 0.
Proof.
  intros Hb. split.
  - intros H0.
    assert (Hb' : ~ (inject_Z b == 0)%Q).
    { unfold Qeq. cbn. lia. }
    pose proof (Qmult_div_r (inject_Z a) (inject_Z b) Hb') as Hm.
    pose proof (Qmult_comp _ _ (Qeq_refl (inject_Z b)) _ _ H0) as Hc.
    assert (Ha : (inject_Z a == 0)%Q).
    { eapply Qeq_trans; [symmetry; exact Hm|].
      eapply Qeq_trans; [exact Hc|apply Qmult_0_r]. }
    unfold Qeq in Ha. cbn in Ha. lia.
  - intros ->. unfold Qdiv. apply Qmult_0_l.
Qed.

Lemma truediv_unit a b :
  0 <= a <= b -> 0 < b -> (0 <= inject_Z a / inject_Z b <= 1)%Q.
Proof.
  intros Ha Hb.
  assert (Hb' : (0 < inject_Z b)%Q) by (unfold Qlt; cbn; lia).
  split.
  - apply Qle_shift_div_l; [exact Hb'|]. rewrite Qmult_0_l.
    unfold Qle. cbn. lia.
  - apply Qle_shift_div_r; [exact Hb'|]. rewrite Qmult_1_l.
    unfold Qle. cbn. lia.
Qed.

Lemma truediv_one a b :
  0 < b -> (inject_Z a / inject_Z b == 1)%Q <-> a = b.
Proof.
  intros Hb.
  assert (Hb' : ~ (inject_Z b == 0)%Q) by (unfold Qeq; cbn; lia).
  split.
  - intros H1. pose proof (Qmult_div_r (inject_Z a) (inject_Z b) Hb') as Hm.
    pose proof (Qmult_comp _ _ (Qeq_refl (inject_Z b)) _ _ H1) as Hc.
    assert (Ha : (inject_Z a == inject_Z b)%Q).
    { eapply Qeq_trans; [symmetry; exact Hm|].
      eapply Qeq_trans; [exact Hc|apply Qmult_1_r]. }
    unfold Qeq in Ha. cbn in Ha. lia.
  - intros ->. unfold Qdiv. apply Qmult_inv_r, Hb'.
Qed.

(** The value of [accuracy], case by case. *)
Lemma accuracy_cases typed source :
  accuracy typed source
    = Ok (match split typed, split source with
          | [], [] => 100
          | [], _ :: _ | _ :: _, [] => 0
          | _ :: _, _ :: _ =>
              (1 - inject_Z
                     (Z.of_nat (mistyped_positions (split typed) (split source))
                      + Z.max 0 (Z.of_nat (length (split typed))
                                 - Z.of_nat (length (split source))))
                   / inject_Z (Z.of_nat (length (split typed)))) * 100
          end)%Q.
Proof.
  unfold accuracy.
  rewrite compute_mistyped_words_count, compute_extra_typed_words_max.
  destruct (split typed) as [|t tw], (split source) as [|s sw]; reflexivity.
Qed.

Lemma accuracy_perfect typed source q :
  accuracy typed source = Ok q ->
  ((q == 100)%Q <->
   split typed `prefix_of` split source /\
   (split typed <> [] \/ split source = [])).
Proof.
  rewrite accuracy_cases. intros [= <-].
  destruct (split typed) as [|t tw] eqn:Htw, (split source) as [|s sw] eqn:Hsw.
  - split; [intros _; split; [apply prefix_nil|right; reflexivity]|reflexivity].
  - split; [intros H; discriminate H|]. intros [_ [H|H]]; [contradiction|discriminate].
  - split; [intros H; discriminate H|]. intros [H _].
    apply prefix_nil_not in H. contradiction.
  - pose proof (mistyped_le (t :: tw) (s :: sw)) as Hle.
    pose proof (mistyped_zero_prefix (t :: tw) (s :: sw)) as Hpre.
    set (m := mistyped_positions (t :: tw) (s :: sw)) in *.
    set (k := Z.of_nat m + Z.max 0 (Z.of_nat (length (t :: tw))
                                    - Z.of_nat (length (s :: sw)))).
    pose proof (truediv_zero k (Z.of_nat (length (t :: tw)))
                  ltac:(cbn [length]; lia)) as Hz.
    split.
    + intros Hq. assert (Hk : k = 0) by (apply Hz; lra).
      split; [|left; discriminate]. apply Hpre. subst k. lia.
    + intros [Hp _]. apply Hpre in Hp as [Hm Hl].
      assert (Hk : k = 0) by (subst k; lia).
      apply Hz in Hk. lra.
Qed.

End ScoringMore.

(** X11: [accuracy] never raises, and its result lies between 0 and 100. *)
Theorem accuracy_range typed source :
  exists q, Scorer.accuracy typed source = Ok q /\ (0 <= q <= 100)%Q.
Proof.
  rewrite accuracy_cases. eexists. split; [reflexivity|].
  destruct (Scorer.split typed) as [|t tw] eqn:Htw,
           (Scorer.split source) as [|s sw] eqn:Hsw; try lra.
  pose proof (mistyped_le (t :: tw) (s :: sw)) as Hle.
  set (k := Z.of_nat (mistyped_positions (t :: tw) (s :: sw))
            + Z.max 0 (Z.of_nat (length (t :: tw)) - Z.of_nat (length (s :: sw)))).
  pose proof (truediv_unit k (Z.of_nat (length (t :: tw)))
                ltac:(subst k; lia) ltac:(cbn [length]; lia)).
  lra.
Qed.

(** X12: [accuracy] is 100 exactly when the typed words are the first words
    of the source and either some word was typed or the source has no
    word. *)
Theorem accuracy_perfect_iff typed source :
  (exists q, Scorer.accuracy typed source = Ok q /\ (q == 100)%Q) <->
  Scorer.split typed `prefix_of` Scorer.split source /\
  (Scorer.split typed <> [] \/ Scorer.split source = []).
Proof.
  split.
  - intros (q & Hq & H100). apply (accuracy_perfect typed source q Hq), H100.
  - intros H. rewrite accuracy_cases. eexists. split; [reflexivity|].
    apply (accuracy_perfect typed source _ (accuracy_cases typed source)), H.
Qed.

(** X13: a text scored against itself is 100 percent accurate, also when it
    has no word. *)
Theorem accuracy_same typed :
  exists q, Scorer.accuracy typed typed = Ok q /\ (q == 100)%Q.
Proof.
  rewrite accuracy_cases. eexists. split; [reflexivity|].
  apply (accuracy_perfect typed typed _ (accuracy_cases typed typed)).
  split; [reflexivity|].
  destruct (Scorer.split typed); [right; reflexivity|left; discriminate].
Qed.

(** * Further properties of autocorrect *)

Section AutocorrectMore.

Import Autocorrect.

Lemma first_minimum_least d word_list best :
  first_minimum d word_list best ->
  In best word_list /\ forall w, In w word_list -> d best <= d w.
Proof.
  intros (before & after & -> & Hb & Ha). split.
  - apply in_or_app. right. left. reflexivity.
  - intros w Hw. apply in_app_or in Hw as [Hw|[<-|Hw]].
    + specialize (Hb w Hw). lia.
    + lia.
    + apply Ha, Hw.
Qed.

(** The result of [autocorrect] on a word that is not in the list. *)
Lemma autocorrect_not_in typed_word word_list diff limit :
  ~ In typed_word word_list ->
  (word_list = [] /\ autocorrect typed_word word_list diff limit = typed_word) \/
  (exists best,
     first_minimum (fun w => diff typed_word w limit) word_list best /\
     autocorrect typed_word word_list diff limit
       = if diff typed_word best limit >? limit then typed_word else best).
Proof.
  intros Hnot. destruct word_list as [|w0 word_list]; [left; split; reflexivity|].
  right.
  destruct (first_minimum_exists diff limit typed_word (w0 :: word_list)
              ltac:(discriminate)) as [best Hbest].
  exists best. split; [exact Hbest|]. unfold autocorrect.
  destruct (existsb (String.eqb typed_word) (w0 :: word_list)) eqn:Hex;
    [apply existsb_eqb_In in Hex; contradiction|].
  rewrite (compute_smallest_diff_first_minimum diff limit typed_word _ best Hbest).
  reflexivity.
Qed.

Lemma autocorrect_in typed_word word_list diff limit :
  In typed_word word_list ->
  autocorrect typed_word word_list diff limit = typed_word.
Proof.
  intros Hin. unfold autocorrect.
  apply existsb_eqb_In in Hin. rewrite Hin. reflexivity.
Qed.

(** Two difference functions that agree up to the limit, and are both above
    it otherwise, give the same correction. *)
Lemma autocorrect_agree typed_word word_list (d1 d2 : diff_function) limit :
  (forall w, In w word_list ->
     (d2 typed_word w limit <= limit ->
      d1 typed_word w limit = d2 typed_word w limit) /\
     (limit < d2 typed_word w limit -> limit < d1 typed_word w limit)) ->
  autocorrect typed_word word_list d1 limit
    = autocorrect typed_word word_list d2 limit.
Proof.
  intros Hagree.
  destruct (in_dec String.string_dec typed_word word_list) as [Hin|Hnot];
    [rewrite !autocorrect_in by exact Hin; reflexivity|].
  destruct (autocorrect_not_in typed_word word_list d2 limit Hnot)
    as [[-> ->]|(b2 & Hb2 & ->)]; [reflexivity|].
  destruct (autocorrect_not_in typed_word word_list d1 limit Hnot)
    as [[-> _]|(b1 & Hb1 & ->)];
    [destruct Hb2 as (before & after & Heq & _); destruct before; discriminate|].
  destruct (Z.gtb_spec (d2 typed_word b2 limit) limit) as [Hfar|Hnear].
  - destruct (first_minimum_least _ _ _ Hb2) as [_ Hleast].
    destruct (first_minimum_least _ _ _ Hb1) as [Hin1 _].
    pose proof (Hleast b1 Hin1) as Hle. cbv beta in Hle.
    destruct (Hagree b1 Hin1) as [_ Hup].
    destruct (Z.gtb_spec (d1 typed_word b1 limit) limit); [reflexivity|lia].
  - assert (Hsame : first_minimum (fun w => d1 typed_word w limit) word_list b2).
    { destruct (first_minimum_least _ _ _ Hb2) as [Hin2 _].
      destruct (Hagree b2 Hin2) as [Heq2 _].
      destruct Hb2 as (before & after & -> & Hb & Ha).
      exists before, after. split; [reflexivity|]. split; intros w Hw.
      - specialize (Hb w Hw).
        destruct (Hagree w ltac:(apply in_or_app; left; exact Hw)) as [Heq Hup].
        destruct (Z.le_gt_cases (d2 typed_word w limit) limit); lia.
      - specialize (Ha w Hw).
        destruct (Hagree w ltac:(apply in_or_app; right; right; exact Hw))
          as [Heq Hup].
        destruct (Z.le_gt_cases (d2 typed_word w limit) limit); lia. }
    rewrite (first_minimum_unique _ _ _ _ _ _ Hb1 Hsame).
    destruct (first_minimum_least _ _ _ Hb2) as [Hin2 _].
    destruct (Hagree b2 Hin2) as [Heq2 _].
    destruct (Z.gtb_spec (d1 typed_word b2 limit) limit); [lia|reflexivity].
Qed.

End AutocorrectMore.

(** X14: [autocorrect] returns [typed_word] or a word of [word_list]; a
    word other than [typed_word] that it returns is within the limit and
    no word of the list has a smaller difference. *)
Theorem autocorrect_result typed_word word_list diff limit :
  let r := Autocorrect.autocorrect typed_word word_list diff limit in
  r = typed_word \/
  (In r word_list /\ diff typed_word r limit <= limit /\
   forall w, In w word_list -> diff typed_word r limit <= diff typed_word w limit).
Proof.
  intros r. subst r.
  destruct (in_dec String.string_dec typed_word word_list) as [Hin|Hnot];
    [left; apply autocorrect_in, Hin|].
  destruct (autocorrect_not_in typed_word word_list diff limit Hnot)
    as [[_ ->]|(best & Hbest & ->)]; [left; reflexivity|].
  destruct (Z.gtb_spec (diff typed_word best limit) limit); [left; reflexivity|].
  right. destruct (first_minimum_least _ _ _ Hbest) as [Hin Hleast].
  split; [exact Hin|]. split; [lia|exact Hleast].
Qed.

(** X15: the pruning of [minimum_mewtations] never changes a correction:
    at every limit [autocorrect] with [minimum_mewtations] returns what it
    returns with [final_diff], the edit distance computed without pruning. *)
Theorem autocorrect_minimum_mewtations_exact typed_word word_list limit :
  Autocorrect.autocorrect typed_word word_list minimum_mewtations limit
    = Autocorrect.autocorrect typed_word word_list final_diff limit.
Proof.
  apply autocorrect_agree. intros w _. rewrite final_diff_lev.
  pose proof (minimum_mewtations_lev typed_word w limit) as Hb.
  rewrite (minimum_mewtations_eq typed_word w limit) in *.
  destruct (Z.ltb_spec limit 0); split; lia.
Qed.

(** X16: the pruning of [feline_fixes] never changes a correction: at every
    limit [autocorrect] with [feline_fixes] returns what it returns with the
    number of differing positions plus the difference of the lengths. *)
Theorem autocorrect_feline_fixes_exact typed_word word_list limit :
  Autocorrect.autocorrect typed_word word_list feline_fixes limit
    = Autocorrect.autocorrect typed_word word_list
        (fun typed source _ =>
           Z.of_nat (differing_positions typed source + length_gap typed source))
        limit.
Proof.
  apply autocorrect_agree. intros w _. rewrite <- ham_positions.
  pose proof (feline_fixes_ham typed_word w limit) as Hb.
  rewrite (feline_fixes_eq typed_word w limit) in *.
  destruct (Z.ltb_spec limit 0); split; lia.
Qed.

(** X17: for a word that is not in the list, [autocorrect] with
    [minimum_mewtations] returns a word of the list exactly when some word
    of the list is within edit distance [limit], and the word it returns
    is then at the least edit distance among the words of the list. *)
Theorem autocorrect_closest typed_word word_list limit :
  ~ In typed_word word_list ->
  let r := Autocorrect.autocorrect typed_word word_list minimum_mewtations limit in
  (In r word_list <->
   exists w d, In w word_list /\ edit_distance typed_word w d /\ Z.of_nat d <= limit) /\
  (In r word_list ->
   exists d, edit_distance typed_word r d /\ Z.of_nat d <= limit /\
     forall w d', In w word_list -> edit_distance typed_word w d' -> (d <= d')%nat).
Proof.
  intros Hnot r. subst r.
  rewrite (autocorrect_agree typed_word word_list minimum_mewtations final_diff limit).
  2:{ intros w _. rewrite final_diff_lev.
      pose proof (minimum_mewtations_lev typed_word w limit) as Hb.
      rewrite (minimum_mewtations_eq typed_word w limit) in *.
      destruct (Z.ltb_spec limit 0); split; lia. }
  destruct (autocorrect_not_in typed_word word_list final_diff limit Hnot)
    as [[-> ->]|(best & Hbest & ->)].
  - split; [|intros []]. split; [intros []|intros (w & d & [] & _)].
  - destruct (first_minimum_least _ _ _ Hbest) as [Hin Hleast].
    rewrite final_diff_lev in *.
    assert (Hmin : forall w d', In w word_list -> edit_distance typed_word w d' ->
                     (lev typed_word best <= d')%nat).
    { intros w d' Hw Hd'. apply edit_distance_lev in Hd'. subst d'.
      specialize (Hleast w Hw). cbv beta in Hleast. rewrite !final_diff_lev in Hleast.
      lia. }
    destruct (Z.gtb_spec (Z.of_nat (lev typed_word best)) limit) as [Hfar|Hnear].
    + split; [|intros H; contradiction]. split; [intros H; contradiction|].
      intros (w & d & Hw & Hd & Hle). specialize (Hmin w d Hw Hd). lia.
    + split.
      * split; [|intros _; exact Hin]. intros _.
        exists best, (lev typed_word best).
        split; [exact Hin|]. split; [apply lev_edit_distance|lia].
      * intros _. exists (lev typed_word best).
        split; [apply lev_edit_distance|]. split; [lia|exact Hmin].
Qed.

Lemma autocorrect_closest_witness :
  (In (Autocorrect.autocorrect "ckiteus" ["kitten"; "kittens"; "mitten"]
         minimum_mewtations 3) ["kitten"; "kittens"; "mitten"] <->
   exists w d, In w ["kitten"; "kittens"; "mitten"] /\
     edit_distance "ckiteus" w d /\ Z.of_nat d <= 3) /\
  (In (Autocorrect.autocorrect "ckiteus" ["kitten"; "kittens"; "mitten"]
         minimum_mewtations 3) ["kitten"; "kittens"; "mitten"] ->
   exists d, edit_distance "ckiteus"
               (Autocorrect.autocorrect "ckiteus" ["kitten"; "kittens"; "mitten"]
                  minimum_mewtations 3) d /\ Z.of_nat d <= 3 /\
     forall w d', In w ["kitten"; "kittens"; "mitten"] ->
       edit_distance "ckiteus" w d' -> (d <= d')%nat).
Proof.
  apply (autocorrect_closest "ckiteus" ["kitten"; "kittens"; "mitten"] 3).
  intros [H|[H|[H|[]]]]; discriminate H.
Defined.

(** * Further properties of the progress report *)

Section ProgressMore.

Import Progress.

Lemma leading_matches_le typed : forall prompt,
  (leading_matches typed prompt <= Nat.min (length typed) (length prompt))%nat.
Proof.
  induction typed as [|t typed IH]; intros [|p prompt]; cbn; try lia.
  specialize (IH prompt). destruct (String.eqb t p); lia.
Qed.

Lemma leading_matches_all typed : forall prompt,
  leading_matches typed prompt = length prompt <->
  take (length prompt) typed = prompt.
Proof.
  induction typed as [|t typed IH]; intros [|p prompt]; cbn;
    try (split; [reflexivity|reflexivity]); try (split; discriminate).
  destruct (String.eqb_spec t p) as [->|Hne].
  - split.
    + intros [= H]. f_equal. apply IH, H.
    + intros [= H]. f_equal. apply IH, H.
  - split; [discriminate|]. intros [= H _]. contradiction.
Qed.

(** What a call of [report_progress] that returns has computed. *)
Lemma report_progress_returns {W : Type} typed prompt user_id
  (upload : report -> W -> W) server ratio server' :
  report_progress typed prompt user_id upload server = Ok (ratio, server') ->
  prompt <> [] /\
  ~ ((length prompt < length typed)%nat /\ take (length prompt) typed = prompt) /\
  ratio = (inject_Z (Z.of_nat (leading_matches typed prompt))
           / inject_Z (Z.of_nat (length prompt)))%Q /\
  server' = upload {| id := user_id; progress := ratio |} server.
Proof.
  unfold report_progress, compute_progress_ratio, get_progress_ratio, truediv.
  destruct (compute_correct_words_till_mistype_spec prompt typed) as [Hover Hfine].
  destruct (decide ((length prompt < length typed)%nat
                    /\ take (length prompt) typed = prompt)) as [H|H].
  - rewrite (Hover H). discriminate.
  - rewrite (Hfine H). run.
    destruct (Z.eqb_spec (Z.of_nat (length prompt)) 0) as [H0|H0]; [discriminate|].
    run. intros [= <- <-]. repeat split; try assumption.
    intros ->. apply H0. reflexivity.
Qed.

End ProgressMore.

(** X18: a progress ratio that [report_progress] returns lies between 0
    and 1, and it is the ratio of the report that was uploaded. *)
Theorem report_progress_range {W : Type} typed prompt user_id
  (upload : Progress.report -> W -> W) server ratio server' :
  Progress.report_progress typed prompt user_id upload server = Ok (ratio, server') ->
  (0 <= ratio <= 1)%Q /\
  server' = upload {| Progress.id := user_id; Progress.progress := ratio |} server.
Proof.
  intros Hrun. apply report_progress_returns in Hrun as (Hne & _ & -> & ->).
  split; [|reflexivity].
  pose proof (leading_matches_le typed prompt).
  apply truediv_unit; [lia|]. destruct prompt; [contradiction|cbn; lia].
Qed.

Lemma report_progress_range_witness :
  (0 <= 3 # 5 <= 1)%Q /\
  [{| Progress.id := 2; Progress.progress := 3 # 5 |}]
    = (fun r log => r :: log) {| Progress.id := 2; Progress.progress := 3 # 5 |} [].
Proof.
  apply (report_progress_range ["how"; "are"; "you"]
           ["how"; "are"; "you"; "doing"; "today"] 2 (fun r log => r :: log) []).
  vm_compute. reflexivity.
Defined.

(** X19: a progress ratio that [report_progress] returns is 1 exactly when
    the typed words are the whole prompt. *)
Theorem report_progress_complete {W : Type} typed prompt user_id
  (upload : Progress.report -> W -> W) server ratio server' :
  Progress.report_progress typed prompt user_id upload server = Ok (ratio, server') ->
  ((ratio == 1)%Q <-> typed = prompt).
Proof.
  intros Hrun. apply report_progress_returns in Hrun as (Hne & Hnot & -> & _).
  assert (Hpos : 0 < Z.of_nat (length prompt))
    by (destruct prompt; [contradiction|cbn; lia]).
  rewrite (truediv_one _ _ Hpos), Nat2Z.inj_iff, leading_matches_all.
  split.
  - intros Htake.
    assert (Hlen : (length typed <= length prompt)%nat).
    { destruct (Nat.le_gt_cases (length typed) (length prompt)); [assumption|].
      exfalso. apply Hnot. split; assumption. }
    rewrite take_ge in Htake by exact Hlen. exact Htake.
  - intros ->. apply take_ge. lia.
Qed.

Lemma report_progress_complete_witness :
  ((3 # 5 == 1)%Q <->
   ["how"; "are"; "you"] = ["how"; "are"; "you"; "doing"; "today"]).
Proof.
  apply (report_progress_complete ["how"; "are"; "you"]
           ["how"; "are"; "you"; "doing"; "today"] 2 (fun r log => r :: log) []
           (3 # 5) [{| Progress.id := 2; Progress.progress := 3 # 5 |}]).
  vm_compute. reflexivity.
Defined.

(** * Timing data *)

Section TimingProofs.

Import Progress Timing.

Lemma durations_length ts : length (durations ts) = (length ts - 1)%nat.
Proof.
  unfold durations. rewrite length_zip_with. destruct ts; cbn; lia.
Qed.

Lemma durations_lookup ts i :
  durations ts !! i = (later ← ts !! S i; sooner ← ts !! i; Some (later - sooner)).
Proof. unfold durations. rewrite lookup_zip_with, lookup_tail. reflexivity. Qed.

Lemma durations_total ts : total (durations ts) = List.last ts 0 - hd 0 ts.
Proof.
  destruct ts as [|a ts]; [reflexivity|]. cbn [hd].
  revert a. induction ts as [|b ts IH]; intros a; [cbn; lia|].
  change (durations (a :: b :: ts)) with ((b - a) :: durations (b :: ts)).
  cbn [total foldr]. fold (total (durations (b :: ts))).
  rewrite IH. cbn [hd]. change (List.last (a :: b :: ts) 0) with (List.last (b :: ts) 0).
  lia.
Qed.

Lemma number_sub_int later sooner :
  number_sub (Int later) (Int sooner) = Ok (Int (later - sooner)).
Proof. reflexivity. Qed.

Lemma as_numbers_snoc zss zs :
  as_numbers (zss ++ [zs]) = as_numbers zss ++ [Int <$> zs].
Proof. unfold as_numbers. apply fmap_snoc. Qed.

(** The loop of [get_time_per_player] on integer timestamps, from index [i]
    on: the new list holds the first [i] differences. *)
Lemma get_time_loop h times ts :
  h !! times = Some (NumList (Int <$> ts)) ->
  forall n i, (i + n)%nat = (length ts - 1)%nat ->
  for_each (seq i n)
    (fun i h' =>
       ts' ← num_list h' times;
       later ← index ts' (i + 1);
       sooner ← index ts' i;
       duration ← number_sub later sooner;
       h'' ← append_num (length h) duration h';
       Ok (Next h''))
    (h ++ [NumList (Int <$> take i (durations ts))])
  = Ok (h ++ [NumList (Int <$> durations ts)]).
Proof.
  intros Hts. induction n as [|n IH]; intros i Hi.
  - cbn. rewrite take_ge by (rewrite durations_length; lia). reflexivity.
  - cbn [seq for_each].
    assert (Hn : num_list (h ++ [NumList (Int <$> take i (durations ts))]) times
                 = Ok (Int <$> ts)).
    { unfold num_list. rewrite (lookup_app_l_Some _ _ _ _ Hts). reflexivity. }
    rewrite Hn. run.
    destruct (lookup_lt_is_Some_2 ts (i + 1) ltac:(lia)) as [later Hl].
    destruct (lookup_lt_is_Some_2 ts i ltac:(lia)) as [sooner Hs].
    unfold index. rewrite !list_lookup_fmap, Hl, Hs.
    cbn [fmap option_fmap option_map]. run.
    rewrite number_sub_int. run.
    unfold append_num. rewrite lookup_app_r by lia.
    rewrite Nat.sub_diag. cbn [lookup list_lookup]. run.
    replace (length h) with (length h + 0)%nat at 1 by lia.
    rewrite insert_app_r. cbn [insert list_insert].
    rewrite <- fmap_snoc, <- (take_S_r (durations ts) i (later - sooner)).
    + apply IH. lia.
    + rewrite durations_lookup. replace (S i) with (i + 1)%nat by lia.
      rewrite Hl, Hs. reflexivity.
Qed.

Lemma get_time_per_player_run h times ts :
  h !! times = Some (NumList (Int <$> ts)) ->
  get_time_per_player times h
    = Ok (length h, h ++ [NumList (Int <$> durations ts)]).
Proof.
  intros Hts. unfold get_time_per_player, alloc, range.
  assert (Hn : num_list (h ++ [NumList []]) times = Ok (Int <$> ts)).
  { unfold num_list. rewrite (lookup_app_l_Some _ _ _ _ Hts). reflexivity. }
  rewrite Hn. run. rewrite length_fmap.
  pose proof (get_time_loop h times ts Hts (length ts - 1) 0 eq_refl) as Hloop.
  change (Int <$> take 0 (durations ts)) with (@nil number) in Hloop.
  rewrite Hloop. reflexivity.
Qed.

End TimingProofs.

(** X20: on a list of integer timestamps, [get_time_per_player] returns a
    new list and leaves every list of the caller as it was.  The new list
    has one entry less than the timestamps (none for an empty list), entry
    [i] is timestamp [i + 1] minus timestamp [i], and the entries add up to
    the last timestamp minus the first. *)
Theorem get_time_per_player_spec h times ts :
  h !! times = Some (Progress.NumList (Progress.Int <$> ts)) ->
  Timing.get_time_per_player times h
    = Ok (length h, h ++ [Progress.NumList (Progress.Int <$> durations ts)]) /\
  length (durations ts) = (length ts - 1)%nat /\
  (forall i, durations ts !! i
             = (later ← ts !! S i; sooner ← ts !! i; Some (later - sooner))) /\
  total (durations ts) = List.last ts 0 - hd 0 ts.
Proof.
  intros Hts. split; [apply get_time_per_player_run, Hts|].
  split; [apply durations_length|]. split; [apply durations_lookup|].
  apply durations_total.
Qed.

Lemma get_time_per_player_spec_witness :
  Timing.get_time_per_player 0%nat
    [Progress.NumList (Progress.Int <$> [75; 81; 84; 90; 92])]
    = Ok (1%nat, [Progress.NumList (Progress.Int <$> [75; 81; 84; 90; 92])]
                 ++ [Progress.NumList
                       (Progress.Int <$> durations [75; 81; 84; 90; 92])]) /\
  length (durations [75; 81; 84; 90; 92]) = (5 - 1)%nat /\
  (forall i, durations [75; 81; 84; 90; 92] !! i
             = (later ← [75; 81; 84; 90; 92] !! S i;
                sooner ← [75; 81; 84; 90; 92] !! i; Some (later - sooner))) /\
  total (durations [75; 81; 84; 90; 92])
    = List.last [75; 81; 84; 90; 92] 0 - hd 0 [75; 81; 84; 90; 92].
Proof.
  apply (get_time_per_player_spec
           [Progress.NumList (Progress.Int <$> [75; 81; 84; 90; 92])]
           0%nat [75; 81; 84; 90; 92]).
  reflexivity.
Defined.

Section TimePerWord.

Import Progress Timing.

Variables (h : heap) (words p : loc).
Variables (ws : list string) (rs : list loc) (tss : list (list Z)).
Hypothesis words_at : h !! words = Some (StrList ws).
Hypothesis players_at : h !! p = Some (RefList rs).
Hypothesis stamps_at :
  Forall2 (fun r ts => h !! r = Some (NumList ts)) rs (as_numbers tss).

Lemma with_times_old dss l o :
  h !! l = Some o -> with_times h dss !! l = Some o.
Proof. apply lookup_app_l_Some. Qed.

Lemma with_times_length dss :
  length (with_times h dss) = (S (length h) + length dss)%nat.
Proof.
  unfold with_times. rewrite !length_app, length_fmap. cbn [length]. lia.
Qed.

Lemma with_times_refs dss :
  with_times h dss !! length h
    = Some (RefList (seq (S (length h)) (length dss))).
Proof.
  unfold with_times. rewrite lookup_app_r by lia. rewrite Nat.sub_diag. reflexivity.
Qed.

Lemma with_times_entry dss i ds :
  dss !! i = Some ds ->
  with_times h dss !! (S (length h) + i)%nat = Some (NumList ds).
Proof.
  intros Hi. unfold with_times. rewrite lookup_app_r by lia.
  rewrite lookup_app_r by (cbn [length]; lia). cbn [length].
  replace (S (length h) + i - length h - 1)%nat with i by lia.
  rewrite list_lookup_fmap, Hi. reflexivity.
Qed.

Lemma with_times_snoc dss ds :
  <[length h := RefList (seq (S (length h)) (length dss)
                         ++ [length (with_times h dss)])]>
    (with_times h dss ++ [NumList ds])
  = with_times h (dss ++ [ds]).
Proof.
  rewrite with_times_length. unfold with_times.
  rewrite <- !app_assoc.
  replace (length h) with (length h + 0)%nat at 1 by lia.
  rewrite insert_app_r. cbn [app insert list_insert].
  rewrite length_app, fmap_app. cbn [length fmap list_fmap].
  rewrite Nat.add_1_r, seq_S. reflexivity.
Qed.

(** The timestamps of player [i], a list of integers. *)
Lemma stamps_lookup i r :
  rs !! i = Some r ->
  exists ts, tss !! i = Some ts /\ h !! r = Some (NumList (Int <$> ts)).
Proof.
  intros Hr.
  destruct (Forall2_lookup_l _ _ _ _ _ stamps_at Hr) as (ns & Hns & Hrns).
  unfold as_numbers in Hns. rewrite list_lookup_fmap in Hns.
  destruct (tss !! i) as [ts|]; [|discriminate].
  cbn in Hns. injection Hns as <-. exists ts. split; [reflexivity|exact Hrns].
Qed.

(** One turn of the loop of [time_per_word]. *)
Lemma time_per_word_step dss i r ts :
  length dss = i -> rs !! i = Some r -> h !! r = Some (NumList (Int <$> ts)) ->
  (ps' ← ref_list (with_times h dss) p;
   player ← index ps' i;
   made ← get_time_per_player player (with_times h dss);
   let '(player_time, h'') := made in
   h3 ← extend_refs (length h) [player_time] h'';
   Ok (Next h3))
  = Ok (Next (with_times h (dss ++ [Int <$> durations ts]))).
Proof.
  intros Hlen Hr Hts. unfold ref_list.
  rewrite (with_times_old dss p _ players_at). run.
  unfold index. rewrite Hr. run.
  rewrite (get_time_per_player_run (with_times h dss) r ts
             (with_times_old dss r _ Hts)). run.
  unfold extend_refs.
  rewrite (lookup_app_l_Some _ _ _ _ (with_times_refs dss)). run.
  rewrite with_times_snoc. reflexivity.
Qed.

Lemma time_per_word_loop n : forall i,
  (i + n)%nat = length rs ->
  for_each (seq i n)
    (fun i h' =>
       ps' ← ref_list h' p;
       player ← index ps' i;
       made ← get_time_per_player player h';
       let '(player_time, h'') := made in
       h3 ← extend_refs (length h) [player_time] h'';
       Ok (Next h3))
    (with_times h (as_numbers (durations <$> take i tss)))
  = Ok (with_times h (as_numbers (durations <$> tss))).
Proof.
  pose proof (Forall2_length _ _ _ stamps_at) as Hlen.
  unfold as_numbers in Hlen. rewrite length_fmap in Hlen.
  induction n as [|n IH]; intros i Hi.
  - cbn. rewrite take_ge by lia. reflexivity.
  - cbn [seq for_each].
    destruct (lookup_lt_is_Some_2 rs i ltac:(lia)) as [r Hr].
    destruct (stamps_lookup i r Hr) as (ts & Hts & Hrts).
    rewrite (time_per_word_step (as_numbers (durations <$> take i tss)) i r ts
               ltac:(unfold as_numbers; rewrite !length_fmap, length_take; lia)
               Hr Hrts).
    rewrite <- as_numbers_snoc, <- fmap_snoc, <- (take_S_r tss i ts Hts).
    apply IH. lia.
Qed.

Lemma with_times_stamps dss :
  Forall2 (fun r ds => with_times h dss !! r = Some (NumList ds))
    (seq (S (length h)) (length dss)) dss.
Proof.
  apply Forall2_same_length_lookup_2; [rewrite length_seq; reflexivity|].
  intros i r ds Hr Hds. apply lookup_seq in Hr as [-> _].
  apply with_times_entry, Hds.
Qed.

Lemma stored_lists_unique (hh : heap) refs : forall a b,
  Forall2 (fun r ts => hh !! r = Some (NumList ts)) refs a ->
  Forall2 (fun r ts => hh !! r = Some (NumList ts)) refs b -> a = b.
Proof.
  induction refs as [|r refs IH]; intros a b Ha Hb.
  - inversion Ha. inversion Hb. reflexivity.
  - destruct a as [|x a]; [inversion Ha|]. destruct b as [|y b]; [inversion Hb|].
    apply Forall2_cons in Ha as [Hx Ha]. apply Forall2_cons in Hb as [Hy Hb].
    f_equal; [congruence|apply IH; assumption].
Qed.

Lemma length_times : length (as_numbers (durations <$> tss)) = length tss.
Proof. unfold as_numbers. rewrite !length_fmap. reflexivity. Qed.

Lemma time_per_word_run :
  time_per_word words p h
    = if all_times_long (with_times h (as_numbers (durations <$> tss)))
           (length ws) (seq (S (length h)) (length tss))
      then Ok ({| Progress.words := words; times := length h |},
               with_times h (as_numbers (durations <$> tss)))
      else Raise AssertionError.
Proof.
  unfold time_per_word, alloc, range.
  assert (Hp : ref_list (h ++ [RefList []]) p = Ok rs).
  { unfold ref_list. rewrite (lookup_app_l_Some _ _ _ _ players_at). reflexivity. }
  rewrite Hp. run.
  pose proof (time_per_word_loop (length rs) 0 eq_refl) as Hloop.
  change (with_times h (as_numbers (durations <$> take 0 tss)))
    with (h ++ [RefList []]) in Hloop.
  rewrite Hloop. run. unfold match_.
  rewrite (with_times_old _ words _ words_at), with_times_refs, length_times.
  destruct (all_times_long _ _ _); reflexivity.
Qed.

Lemma time_per_word_checks :
  all_times_long (with_times h (as_numbers (durations <$> tss))) (length ws)
    (seq (S (length h)) (length tss)) = true
  <-> Forall (fun ts => (length ts - 1)%nat = length ws) tss.
Proof.
  rewrite all_times_long_spec.
  pose proof (with_times_stamps (as_numbers (durations <$> tss))) as Hst.
  rewrite length_times in Hst. split.
  - intros (dss & Hdss & Hall).
    rewrite (stored_lists_unique _ _ _ _ Hdss Hst) in Hall.
    apply as_numbers_long_inv, Forall_fmap in Hall.
    eapply Forall_impl; [exact Hall|].
    intros ts Hts. cbn in Hts. rewrite durations_length in Hts. exact Hts.
  - intros Hall. exists (as_numbers (durations <$> tss)). split; [exact Hst|].
    unfold as_numbers. rewrite <- list_fmap_compose.
    apply Forall_fmap. eapply Forall_impl; [exact Hall|].
    intros ts Hts. cbn. rewrite length_fmap, durations_length. exact Hts.
Qed.

(** The match that [time_per_word] returns, in the store it returns. *)
Lemma time_per_word_match :
  match_at (with_times h (as_numbers (durations <$> tss)))
    {| Progress.words := words; times := length h |} ws
    (as_numbers (durations <$> tss)).
Proof.
  split; [apply with_times_old, words_at|].
  exists (seq (S (length h)) (length tss)). split.
  - cbn [Progress.times]. rewrite with_times_refs, length_times. reflexivity.
  - pose proof (with_times_stamps (as_numbers (durations <$> tss))) as Hs.
    rewrite length_times in Hs. exact Hs.
Qed.

End TimePerWord.

(** X21: [time_per_word] on a list of words and, per player, a list of
    integer timestamps.  When every list of timestamps has one entry more
    than there are words (or is empty while there is no word), it returns a
    match on the same list of words whose times are the differences between
    consecutive timestamps, held in new lists, and no list of the caller is
    changed.  Otherwise the assertion of [match] fails. *)
Theorem time_per_word_spec h words p ws rs tss :
  h !! words = Some (Progress.StrList ws) ->
  h !! p = Some (Progress.RefList rs) ->
  Forall2 (fun r ts => h !! r = Some (Progress.NumList ts)) rs (as_numbers tss) ->
  let m := {| Progress.words := words; Progress.times := length h |} in
  let h' := with_times h (as_numbers (durations <$> tss)) in
  (Forall (fun ts => (length ts - 1)%nat = length ws) tss ->
   Timing.time_per_word words p h = Ok (m, h') /\
   match_at h' m ws (as_numbers (durations <$> tss)) /\
   Forall (fun ds => length ds = length ws) (durations <$> tss) /\
   (forall l o, h !! l = Some o -> h' !! l = Some o)) /\
  (~ Forall (fun ts => (length ts - 1)%nat = length ws) tss ->
   Timing.time_per_word words p h = Raise AssertionError).
Proof.
  intros Hw Hp Hst m h'.
  pose proof (time_per_word_run h words p ws rs tss Hw Hp Hst) as Hrun.
  pose proof (time_per_word_checks h ws tss) as Hchk.
  split.
  - intros Hall. rewrite Hrun, (proj2 Hchk Hall).
    split; [reflexivity|]. split; [|split].
    + apply time_per_word_match, Hw.
    + apply Forall_fmap. eapply Forall_impl; [exact Hall|].
      intros ts Hts. cbn. rewrite durations_length. exact Hts.
    + intros l o. apply with_times_old.
  - intros Hnot. rewrite Hrun.
    destruct (Progress.all_times_long _ _ _) eqn:Hall; [|reflexivity].
    exfalso. apply Hnot, Hchk. reflexivity.
Qed.

Lemma time_per_word_spec_witness :
  Timing.time_per_word 2%nat 3%nat
    [Progress.NumList (Progress.Int <$> [75; 81; 84; 90; 92]);
     Progress.NumList (Progress.Int <$> [19; 29; 35; 36; 38]);
     Progress.StrList ["collar"; "plush"; "blush"; "repute"];
     Progress.RefList [0%nat; 1%nat]]
  = Ok ({| Progress.words := 2; Progress.times := 4 |},
        with_times
          [Progress.NumList (Progress.Int <$> [75; 81; 84; 90; 92]);
           Progress.NumList (Progress.Int <$> [19; 29; 35; 36; 38]);
           Progress.StrList ["collar"; "plush"; "blush"; "repute"];
           Progress.RefList [0%nat; 1%nat]]
          (as_numbers
             (durations <$> [[75; 81; 84; 90; 92]; [19; 29; 35; 36; 38]]))).
Proof.
  apply (proj1 (time_per_word_spec
    [Progress.NumList (Progress.Int <$> [75; 81; 84; 90; 92]);
     Progress.NumList (Progress.Int <$> [19; 29; 35; 36; 38]);
     Progress.StrList ["collar"; "plush"; "blush"; "repute"];
     Progress.RefList [0%nat; 1%nat]]
    2%nat 3%nat ["collar"; "plush"; "blush"; "repute"] [0%nat; 1%nat]
    [[75; 81; 84; 90; 92]; [19; 29; 35; 36; 38]]
    eq_refl eq_refl
    ltac:(repeat constructor))).
  repeat constructor.
Defined.

(** X22: [fastest_words] runs on the match that [time_per_word] returns.
    With well-formed integer timestamps and at least one player, or no word,
    the two calls in sequence succeed, and every word goes to the first
    player with the least difference between the two timestamps around that
    word. *)
Theorem fastest_words_after_time_per_word h words p ws rs zss :
  h !! words = Some (Progress.StrList ws) ->
  h !! p = Some (Progress.RefList rs) ->
  Forall2 (fun r ts => h !! r = Some (Progress.NumList ts)) rs (as_numbers zss) ->
  Forall (fun zs => (length zs - 1)%nat = length ws) zss ->
  zss <> [] \/ ws = [] ->
  exists m h' winner,
    Timing.time_per_word words p h = Ok (m, h') /\
    (forall j, (j < length ws)%nat ->
       is_fastest (durations <$> zss) j (winner j)) /\
    Progress.fastest_words m h'
      = Ok ((length h' + length zss)%nat,
            with_fastest h' (words_won ws winner <$> seq 0 (length zss))) /\
    (forall l o, h !! l = Some o ->
       with_fastest h' (words_won ws winner <$> seq 0 (length zss)) !! l = Some o).
Proof.
  intros Hw Hp Hst Hall Hplayers.
  pose proof (time_per_word_run h words p ws rs zss Hw Hp Hst) as Hrun.
  rewrite (proj2 (time_per_word_checks h ws zss) Hall) in Hrun.
  pose proof (time_per_word_match h words ws zss Hw) as Hm.
  set (m := {| Progress.words := words; Progress.times := length h |}) in *.
  set (h' := with_times h (as_numbers (durations <$> zss))) in *.
  assert (Hlong : Forall (fun ds => length ds = length ws) (durations <$> zss)).
  { apply Forall_fmap. eapply Forall_impl; [exact Hall|].
    intros ts Hts. cbn. rewrite durations_length. exact Hts. }
  assert (Hplayers' : durations <$> zss <> [] \/ ws = []).
  { destruct Hplayers as [H|H]; [left|right; exact H].
    destruct zss; [contradiction|discriminate]. }
  destruct (fastest_words_on m ws (durations <$> zss) Hlong h' Hm Hplayers')
    as (winner & Hwin & Hfast).
  rewrite length_fmap in Hfast.
  exists m, h', winner. split; [exact Hrun|]. split; [exact Hwin|].
  split; [exact Hfast|].
  intros l o Hl. apply with_fastest_old, with_times_old, Hl.
Qed.

Lemma fastest_words_after_time_per_word_witness :
  let h := [Progress.NumList (Progress.Int <$> [0; 5; 6; 9]);
            Progress.NumList (Progress.Int <$> [0; 4; 5; 11]);
            Progress.StrList ["Just"; "have"; "fun"];
            Progress.RefList [0%nat; 1%nat]] in
  exists m h' winner,
    Timing.time_per_word 2%nat 3%nat h = Ok (m, h') /\
    (forall j, (j < length ["Just"; "have"; "fun"])%nat ->
       is_fastest (durations <$> [[0; 5; 6; 9]; [0; 4; 5; 11]]) j (winner j)) /\
    Progress.fastest_words m h'
      = Ok ((length h' + length [[0; 5; 6; 9]; [0; 4; 5; 11]])%nat,
            with_fastest h'
              (words_won ["Just"; "have"; "fun"] winner
                 <$> seq 0 (length [[0; 5; 6; 9]; [0; 4; 5; 11]]))) /\
    (forall l o, h !! l = Some o ->
       with_fastest h'
         (words_won ["Just"; "have"; "fun"] winner
            <$> seq 0 (length [[0; 5; 6; 9]; [0; 4; 5; 11]])) !! l = Some o).
Proof.
  intros h.
  apply (fastest_words_after_time_per_word h
    2%nat 3%nat ["Just"; "have"; "fun"] [0%nat; 1%nat]
    [[0; 5; 6; 9]; [0; 4; 5; 11]] eq_refl eq_refl).
  - repeat constructor.
  - repeat constructor.
  - left. discriminate.
Defined.

(** * The match and its accessors *)


(** X24: on a well-formed match, [time] returns the time of a player for a
    word when both indices are in range and fails an assertion otherwise,
    and [get_word] does the same for a word index: neither runs into an
    index error. *)
Theorem accessors_spec h m ws tss p j :
  match_at h m ws tss ->
  Forall (fun ts => length ts = length ws) tss ->
  (forall t, Progress.time m p j h = Ok t <-> time_of tss p j = Some t) /\
  ((length tss <= p)%nat \/ (length ws <= j)%nat ->
   Progress.time m p j h = Raise AssertionError) /\
  (forall w, Progress.get_word m j h = Ok w <-> ws !! j = Some w) /\
  ((length ws <= j)%nat -> Progress.get_word m j h = Raise AssertionError).
Proof.
  intros Hm Hlong.
  assert (Htime_out : (length tss <= p)%nat \/ (length ws <= j)%nat ->
                      Progress.time m p j h = Raise AssertionError).
  { destruct Hm as (Hw & rs & Ht & Hst).
    pose proof (Forall2_length _ _ _ Hst) as Hlen.
    intros Hout. unfold Progress.time, Progress.str_list, Progress.ref_list, assert.
    rewrite Hw. run.
    destruct (Nat.ltb_spec j (length ws)); [|reflexivity]. run.
    rewrite Ht. run.
    destruct (Nat.ltb_spec p (length rs)); [lia|reflexivity]. }
  assert (Hword_out : (length ws <= j)%nat ->
                      Progress.get_word m j h = Raise AssertionError).
  { destruct Hm as (Hw & _). intros Hout.
    unfold Progress.get_word, Progress.str_list, assert. rewrite Hw. run.
    destruct (Nat.ltb_spec j (length ws)); [lia|reflexivity]. }
  split; [|split; [exact Htime_out|split; [|exact Hword_out]]].
  - intros t.
    destruct (Nat.lt_ge_cases p (length tss)) as [Hp|Hp];
      [destruct (Nat.lt_ge_cases j (length ws)) as [Hj|Hj]|].
    + destruct (time_of_is_Some ws tss Hlong p j Hp Hj) as [t0 Ht0].
      rewrite Ht0, (time_ok m ws tss Hlong h p j t0 Hm Ht0).
      split; intros [= ->]; reflexivity.
    + rewrite Htime_out by (right; exact Hj). split; [discriminate|].
      intros Hsome. unfold time_of in Hsome.
      destruct (tss !! p) as [ts|] eqn:Hts; [|discriminate]. cbn in Hsome.
      pose proof (Forall_lookup_1 _ _ _ _ Hlong Hts) as Hl. cbv beta in Hl.
      apply lookup_lt_Some in Hsome. lia.
    + rewrite Htime_out by (left; exact Hp). split; [discriminate|].
      intros Hsome. apply time_of_lt in Hsome. lia.
  - intros w. destruct (ws !! j) as [w0|] eqn:Hj.
    + rewrite (get_word_ok m ws tss h j w0 Hm Hj). split; intros [= ->]; reflexivity.
    + rewrite Hword_out by (apply lookup_ge_None, Hj). split; discriminate.
Qed.

Lemma accessors_spec_witness :
  let h := [Progress.NumList (Progress.Int <$> [5; 1; 3]);
            Progress.NumList [Progress.Int 4; Progress.Int 1; Progress.PosInf];
            Progress.StrList ["Just"; "have"; "fun"];
            Progress.RefList [0%nat; 1%nat]] in
  let m := {| Progress.words := 2; Progress.times := 3 |} in
  (forall t, Progress.time m 1 2 h = Ok t <-> Some Progress.PosInf = Some t) /\
  ((2 <= 1)%nat \/ (3 <= 2)%nat ->
   Progress.time m 1 2 h = Raise AssertionError) /\
  (forall w, Progress.get_word m 2 h = Ok w <-> Some "fun" = Some w) /\
  ((3 <= 2)%nat -> Progress.get_word m 2 h = Raise AssertionError).
Proof.
  intros h m.
  apply (accessors_spec h m ["Just"; "have"; "fun"]
           [Progress.Int <$> [5; 1; 3];
            [Progress.Int 4; Progress.Int 1; Progress.PosInf]] 1 2).
  - split; [reflexivity|]. exists [0%nat; 1%nat]. split; [reflexivity|].
    repeat constructor.
  - repeat constructor.
Defined.

Section FastestCount.

Lemma indicator_sum a n : forall s,
  sum_list ((fun p => if (a =? p)%nat then 1%nat else 0%nat) <$> seq s n)
    = if ((s <=? a) && (a <? s + n))%nat then 1%nat else 0%nat.
Proof.
  induction n as [|n IH]; intros s.
  - cbn [seq]. simpl.
    destruct (Nat.leb_spec s a), (Nat.ltb_spec a (s + 0)); cbn; lia.
  - cbn [seq]. rewrite fmap_cons. simpl. rewrite IH. unfold id.
    destruct (Nat.eqb_spec a s), (Nat.leb_spec s a), (Nat.ltb_spec a (s + S n)),
      (Nat.leb_spec (S s) a), (Nat.ltb_spec a (S s + n)); cbn; lia.
Qed.

Lemma sum_list_add {A : Type} (f g : A -> nat) l :
  sum_list ((fun x => (f x + g x)%nat) <$> l)
    = (sum_list (f <$> l) + sum_list (g <$> l))%nat.
Proof.
  induction l as [|x l IH]; [reflexivity|].
  rewrite !fmap_cons. simpl. rewrite IH. unfold id. lia.
Qed.

(** Among the indices of [l], every word is won by one player below [n]. *)
Lemma won_count (ws : list string) (winner : nat -> nat) n l :
  (forall j, In j l -> (j < length ws)%nat /\ (winner j < n)%nat) ->
  sum_list
    ((fun p => length (omap (fun j => if (winner j =? p)%nat then ws !! j else None) l))
       <$> seq 0 n)
  = length l.
Proof.
  induction l as [|j l IH]; intros Hl.
  - cbn [omap list_omap length]. clear. induction (seq 0 n); [reflexivity|exact IHl].
  - destruct (Hl j ltac:(left; reflexivity)) as [Hj Hwin].
    destruct (lookup_lt_is_Some_2 ws j Hj) as [w Hw].
    rewrite (list_fmap_ext _
      (fun p => ((if (winner j =? p)%nat then 1 else 0)
                 + length (omap (fun j => if (winner j =? p)%nat then ws !! j else None) l))%nat)
      (seq 0 n)).
    + rewrite sum_list_add, indicator_sum, IH
        by (intros j' Hj'; apply Hl; right; exact Hj').
      cbn [length]. destruct (Nat.leb_spec 0 (winner j)), (Nat.ltb_spec (winner j) (0 + n));
        cbn; lia.
    + intros _ p _. cbn [omap list_omap].
      destruct (winner j =? p)%nat; [rewrite Hw|]; reflexivity.
Qed.

End FastestCount.

(** X25: [fastest_words] gives every word to one player.  On a well-formed
    match with integer times and at least one player, or no word, the lists
    it returns -- one per player -- hold [len(words)] words in all, and each
    list is a subsequence of the words. *)
Theorem fastest_words_count h m ws zss :
  match_at h m ws (as_numbers zss) ->
  Forall (fun zs => length zs = length ws) zss ->
  zss <> [] \/ ws = [] ->
  exists lists,
    Progress.fastest_words m h
      = Ok ((length h + length zss)%nat, with_fastest h lists) /\
    length lists = length zss /\
    sum_list (length <$> lists) = length ws /\
    Forall (fun l => sublist l ws) lists.
Proof.
  intros Hm Hlong Hplayers.
  destruct (fastest_words_on m ws zss Hlong h Hm Hplayers) as (winner & Hwin & Hrun).
  exists (words_won ws winner <$> seq 0 (length zss)).
  split; [exact Hrun|]. split; [rewrite length_fmap, length_seq; reflexivity|].
  split.
  - rewrite <- list_fmap_compose. unfold compose, words_won.
    transitivity (length (seq 0 (length ws))); [|apply length_seq].
    apply won_count.
    intros j Hj. apply in_seq in Hj. split; [lia|].
    destruct (Hwin j ltac:(lia)) as (t & Ht & _). eapply time_of_lt, Ht.
  - apply Forall_fmap, Forall_forall. intros p _. cbn. unfold words_won.
    assert (Hgen : forall k (l : list string),
              (forall i, l !! i = ws !! (k + i)%nat) ->
              sublist (omap (fun j => if (winner j =? p)%nat then ws !! j else None)
                         (seq k (length l))) l).
    { intros k l. revert k. induction l as [|x l IH]; intros k Hl; [constructor|].
      cbn [length seq omap list_omap].
      pose proof (Hl 0%nat) as H0. rewrite Nat.add_0_r in H0.
      change (Some x = ws !! k) in H0.
      assert (Hrest : sublist (omap (fun j => if (winner j =? p)%nat then ws !! j else None)
                                 (seq (S k) (length l))) l).
      { apply IH. intros i. replace (S k + i)%nat with (k + S i)%nat by lia.
        exact (Hl (S i)). }
      destruct (winner k =? p)%nat.
      - rewrite <- H0. apply sublist_skip, Hrest.
      - apply sublist_cons, Hrest. }
    apply (Hgen 0%nat ws). intros i. reflexivity.
Qed.

Lemma fastest_words_count_witness :
  let h := [Progress.NumList (Progress.Int <$> [5; 1; 3]);
            Progress.NumList (Progress.Int <$> [4; 1; 6]);
            Progress.StrList ["Just"; "have"; "fun"];
            Progress.RefList [0%nat; 1%nat]] in
  exists lists,
    Progress.fastest_words {| Progress.words := 2; Progress.times := 3 |} h
      = Ok ((4 + length [[5; 1; 3]; [4; 1; 6]])%nat, with_fastest h lists) /\
    length lists = length [[5; 1; 3]; [4; 1; 6]] /\
    sum_list (length <$> lists) = length ["Just"; "have"; "fun"] /\
    Forall (fun l => sublist l ["Just"; "have"; "fun"]) lists.
Proof.
  intros h.
  apply (fastest_words_count h
    {| Progress.words := 2; Progress.times := 3 |}
    ["Just"; "have"; "fun"] [[5; 1; 3]; [4; 1; 6]]).
  - split; [reflexivity|]. exists [0%nat; 1%nat]. split; [reflexivity|].
    repeat constructor.
  - repeat constructor.
  - left. discriminate.
Defined.


Lemma accuracy_perfect_iff_witness :
  exists q, Scorer.accuracy "Cute" "Cute Dog." = Ok q /\ (q == 100)%Q.
Proof.
  apply (proj2 (accuracy_perfect_iff "Cute" "Cute Dog.")).
  split; [exists ["Dog."]; reflexivity|left; discriminate].
Defined.
